(** * omni_cam: the omnidirectional camera model of [src/ocam.cpp]

    A shallow embedding of [omni_cam::OCam] (construction, [backProject3],
    [project3] with its analytic Jacobian, the parameter accessors and
    [loadOCam]) together with the properties stated about it.

    Numbers.  A C++ [double] is modelled by a real number of [R]: the
    development is about the exact-arithmetic meaning of the formulas.
    Rounding, NaN and infinities are outside the model; every statement
    that divides carries the hypothesis under which the C++ division is a
    division by a non-zero number.  An [int] is modelled by [Z]. *)

From Stdlib Require Import Reals Lra Lia List ZArith QArith Qreals.
From Stdlib Require Import String Ascii Bool.
Import ListNotations.

Local Open Scope R_scope.

(** ** The part of Eigen that the camera uses *)

Module Eigen.

(** Dense vectors whose coefficients are reached by index
    ([Eigen::Matrix<double, N, 1>] and [Eigen::VectorXd]). *)
Definition VectorXd := list R.

Definition coeff (v : VectorXd) (i : nat) : R := nth i v 0.

Fixpoint set_coeff (v : VectorXd) (i : nat) (a : R) : VectorXd :=
  match v, i with
  | [], _ => []
  | _ :: w, O => a :: w
  | b :: w, S j => b :: set_coeff w j a
  end.

(** A freshly declared vector of [n] coefficients; Eigen leaves them
    unset, the model starts them at zero. *)
Definition uninitialized (n : nat) : VectorXd := repeat 0 n.

(** [a.dot(b)] on two vectors of static size [n]. *)
Definition dot (n : nat) (a b : VectorXd) : R :=
  fold_left (fun acc i => acc + coeff a i * coeff b i) (seq 0 n) 0.

Record Vector2d := mkVector2d { x2 : R; y2 : R }.
Record Vector3d := mkVector3d { x3 : R; y3 : R; z3 : R }.
Record Vector2i := mkVector2i { xi : Z; yi : Z }.

(** Coefficients of a matrix are named by row and column. *)
Record Matrix2d := mkMatrix2d { m00 : R; m01 : R; m10 : R; m11 : R }.
Record Matrix23 := mkMatrix23
  { j00 : R; j01 : R; j02 : R; j10 : R; j11 : R; j12 : R }.

(** [v(i)] on a vector of three coefficients. *)
Definition coeff3 (v : Vector3d) (i : nat) : R :=
  match i with
  | 0%nat => x3 v
  | 1%nat => y3 v
  | _ => z3 v
  end.

Definition coeff2 (m : Matrix2d) (row col : nat) : R :=
  match row, col with
  | 0%nat, 0%nat => m00 m
  | 0%nat, _ => m01 m
  | _, 0%nat => m10 m
  | _, _ => m11 m
  end.

Definition set2 (m : Matrix2d) (row col : nat) (a : R) : Matrix2d :=
  match row, col with
  | 0%nat, 0%nat => mkMatrix2d a (m01 m) (m10 m) (m11 m)
  | 0%nat, _ => mkMatrix2d (m00 m) a (m10 m) (m11 m)
  | _, 0%nat => mkMatrix2d (m00 m) (m01 m) a (m11 m)
  | _, _ => mkMatrix2d (m00 m) (m01 m) (m10 m) a
  end.

Definition set23 (m : Matrix23) (row col : nat) (a : R) : Matrix23 :=
  match row, col with
  | 0%nat, 0%nat => mkMatrix23 a (j01 m) (j02 m) (j10 m) (j11 m) (j12 m)
  | 0%nat, 1%nat => mkMatrix23 (j00 m) a (j02 m) (j10 m) (j11 m) (j12 m)
  | 0%nat, _ => mkMatrix23 (j00 m) (j01 m) a (j10 m) (j11 m) (j12 m)
  | _, 0%nat => mkMatrix23 (j00 m) (j01 m) (j02 m) a (j11 m) (j12 m)
  | _, 1%nat => mkMatrix23 (j00 m) (j01 m) (j02 m) (j10 m) a (j12 m)
  | _, _ => mkMatrix23 (j00 m) (j01 m) (j02 m) (j10 m) (j11 m) a
  end.

(** The comma initializer [m << a, b, c, ...]: the values are stored one
    after the other along a row, and the next row is started when the
    current one is full. *)
Fixpoint comma_fill {M : Type} (set : M -> nat -> nat -> R -> M)
    (cols : nat) (m : M) (row col : nat) (values : list R) : M :=
  match values with
  | [] => m
  | a :: rest =>
      if (col =? cols)%nat
      then comma_fill set cols (set m (S row) 0%nat a) (S row) 1%nat rest
      else comma_fill set cols (set m row col a) row (S col) rest
  end.

Definition comma2 (values : list R) : Matrix2d :=
  comma_fill set2 2%nat (mkMatrix2d 0 0 0 0) 0%nat 0%nat values.

Definition comma23 (values : list R) : Matrix23 :=
  comma_fill set23 3%nat (mkMatrix23 0 0 0 0 0 0) 0%nat 0%nat values.

Definition identity2 : Matrix2d := mkMatrix2d 1 0 0 1.

Definition add2 (a b : Vector2d) : Vector2d :=
  mkVector2d (x2 a + x2 b) (y2 a + y2 b).

Definition sub2 (a b : Vector2d) : Vector2d :=
  mkVector2d (x2 a - x2 b) (y2 a - y2 b).

(** Matrix times vector. *)
Definition mul_mv (m : Matrix2d) (v : Vector2d) : Vector2d :=
  mkVector2d (m00 m * x2 v + m01 m * y2 v) (m10 m * x2 v + m11 m * y2 v).

(** Matrix times matrix, 2x2 by 2x2 and 2x2 by 2x3. *)
Definition mul_mm (a b : Matrix2d) : Matrix2d :=
  mkMatrix2d (m00 a * m00 b + m01 a * m10 b) (m00 a * m01 b + m01 a * m11 b)
             (m10 a * m00 b + m11 a * m10 b) (m10 a * m01 b + m11 a * m11 b).

Definition mul_m23 (a : Matrix2d) (b : Matrix23) : Matrix23 :=
  mkMatrix23 (m00 a * j00 b + m01 a * j10 b) (m00 a * j01 b + m01 a * j11 b)
             (m00 a * j02 b + m01 a * j12 b)
             (m10 a * j00 b + m11 a * j10 b) (m10 a * j01 b + m11 a * j11 b)
             (m10 a * j02 b + m11 a * j12 b).

Definition determinant (m : Matrix2d) : R := m00 m * m11 m - m10 m * m01 m.

(** [m.inverse()] of a 2x2 matrix: the cofactors scaled by one over the
    determinant. *)
Definition inverse (m : Matrix2d) : Matrix2d :=
  let invdet := 1 / determinant m in
  mkMatrix2d (m11 m * invdet) (- m01 m * invdet)
             (- m10 m * invdet) (m00 m * invdet).

Definition squaredNorm2 (v : Vector2d) : R := x2 v * x2 v + y2 v * y2 v.
Definition norm2 (v : Vector2d) : R := sqrt (squaredNorm2 v).

Definition squaredNorm3 (v : Vector3d) : R :=
  x3 v * x3 v + y3 v * y3 v + z3 v * z3 v.
Definition norm3 (v : Vector3d) : R := sqrt (squaredNorm3 v).

Definition scale3 (k : R) (v : Vector3d) : Vector3d :=
  mkVector3d (k * x3 v) (k * y3 v) (k * z3 v).

Definition add3 (a b : Vector3d) : Vector3d :=
  mkVector3d (x3 a + x3 b) (y3 a + y3 b) (z3 a + z3 b).

Definition dot3 (a b : Vector3d) : R :=
  x3 a * x3 b + y3 a * y3 b + z3 a * z3 b.

Definition div3 (v : Vector3d) (k : R) : Vector3d :=
  mkVector3d (x3 v / k) (y3 v / k) (z3 v / k).

(** [v.normalize()] as Eigen has it since 3.3: divide by the norm, and
    leave a vector of squared norm zero as it is.  (Earlier versions divide
    in every case; the two differ on the zero vector only.) *)
Definition normalize (v : Vector3d) : Vector3d :=
  let z := squaredNorm3 v in
  if Rlt_dec 0 z then div3 v (sqrt z) else v.

End Eigen.

Import Eigen.

(** ** The camera *)

(** The static size of the inverse polynomial.  The header that declares it
    is not part of the sources; the constructor stores a vector of this
    size into a [Matrix<double, 12, 1>], which fixes its value. *)
Definition kInversePolynomialOrder : nat := 12.

Record OCam := mkOCam
  { image_size_ : Vector2i;
    polynomial_ : VectorXd;
    principal_point_ : Vector2d;
    inverse_polynomial_ : VectorXd;
    affine_correction_ : Matrix2d;
    affine_correction_inverse_ : Matrix2d }.

Definition distortionToAffineCorrection (distortion : Vector3d) : Matrix2d :=
  comma2 [1; coeff3 distortion 2; coeff3 distortion 1; coeff3 distortion 0].

(** The constructor [OCam::OCam]. *)
Definition newOCam (image_size : Vector2i) (polynomial : VectorXd)
    (principal_point : Vector2d) (distortion : Vector3d)
    (inverse_polynomial : VectorXd) : OCam :=
  let affine_correction := distortionToAffineCorrection distortion in
  {| image_size_ := image_size;
     polynomial_ := polynomial;
     principal_point_ := principal_point;
     inverse_polynomial_ := inverse_polynomial;
     affine_correction_ := affine_correction;
     affine_correction_inverse_ := inverse affine_correction |}.

(** *** Back projection

    The locals [rectified] and [rho] of [backProject3] are [bp_rectified]
    and [bp_rho]; [bp_z] is the third coefficient of the output vector. *)

Section BackProject.
Variable cam : OCam.
Variable keypoint : Vector2d.

Definition bp_rectified : Vector2d :=
  mul_mv (affine_correction_inverse_ cam)
         (sub2 keypoint (principal_point_ cam)).

Definition bp_rho : R := norm2 bp_rectified.

(** The third coordinate after the five assignments and the sign flip. *)
Definition bp_z : R :=
  let p := coeff (polynomial_ cam) in
  let rho := bp_rho in
  let z := p 4%nat in
  let z := p 3%nat + z * rho in
  let z := p 2%nat + z * rho in
  let z := p 1%nat + z * rho in
  let z := p 0%nat + z * rho in
  (-1) * z.

(** The bearing vector before [normalize]. *)
Definition bp_raw : Vector3d :=
  mkVector3d (x2 bp_rectified) (y2 bp_rectified) bp_z.

Definition backProject3 : Vector3d := normalize bp_raw.
End BackProject.

(** *** Projection *)

(** The loop that fills [theta_powers]. *)
Definition theta_powers (theta : R) : VectorXd :=
  fold_left (fun tp i => set_coeff tp i (coeff tp (i - 1) * theta))
            (seq 1 (kInversePolynomialOrder - 1))
            (set_coeff (uninitialized kInversePolynomialOrder) 0 1).

(** The locals [x], [y] and [z] of [project3] are [pr_x], [pr_y] and
    [pr_z]; the other locals keep their names. *)
Section Project.
Variable cam : OCam.
Variable point_3d : Vector3d.

Definition pr_x : R := x3 point_3d.
Definition pr_y : R := y3 point_3d.
Definition pr_z : R := - z3 point_3d.
Definition xy_norm2 : R := pr_x ^ 2 + pr_y ^ 2.
Definition xy_norm : R := sqrt xy_norm2.
Definition z_by_xy_norm : R := pr_z / xy_norm.
Definition theta : R := atan z_by_xy_norm.

Definition rho : R :=
  dot kInversePolynomialOrder (inverse_polynomial_ cam) (theta_powers theta).

Definition raw_uv : Vector2d :=
  mkVector2d (pr_x / xy_norm * rho) (pr_y / xy_norm * rho).

Definition out_keypoint : Vector2d :=
  add2 (mul_mv (affine_correction_ cam) raw_uv) (principal_point_ cam).

(** rho w.r.t. theta *)
Definition drho_dtheta : R :=
  fold_left
    (fun acc i =>
       acc + INR i * coeff (inverse_polynomial_ cam) i
             * coeff (theta_powers theta) (i - 1))
    (seq 1 (kInversePolynomialOrder - 1)) 0.

(** theta w.r.t. x y z *)
Definition xyz_norm_sqr : R := xy_norm2 + pr_z ^ 2.
Definition dtheta_dx : R := (-1 * pr_x * z_by_xy_norm) / xyz_norm_sqr.
Definition dtheta_dy : R := (-1 * pr_y * z_by_xy_norm) / xyz_norm_sqr.
Definition dtheta_dz : R := xy_norm / xyz_norm_sqr.

(** rho w.r.t. x y z *)
Definition drho_dx : R := drho_dtheta * dtheta_dx.
Definition drho_dy : R := drho_dtheta * dtheta_dy.
Definition drho_dz : R := drho_dtheta * dtheta_dz.

(** uv_raw w.r.t. x y z *)
Definition xy_sqr : R := xy_norm2.
Definition duraw_dx : R :=
  (xy_norm - pr_x * pr_x / xy_norm) / xy_sqr * rho + drho_dx * pr_x / xy_norm.
Definition duraw_dy : R :=
  (-1 * pr_x * pr_y / xy_norm) / xy_sqr * rho + drho_dy * pr_x / xy_norm.
Definition duraw_dz : R := drho_dz * pr_x / xy_norm.
Definition dvraw_dx : R :=
  (-1 * pr_x * pr_y / xy_norm) / xy_sqr * rho + drho_dx * pr_y / xy_norm.
Definition dvraw_dy : R :=
  (xy_norm - pr_y * pr_y / xy_norm) / xy_sqr * rho + drho_dy * pr_y / xy_norm.
Definition dvraw_dz : R := drho_dz * pr_y / xy_norm.

(** uv w.r.t. x y z *)
Definition out_jacobian_point : Matrix23 :=
  mul_m23 (affine_correction_ cam)
          (comma23 [duraw_dx; duraw_dy; - duraw_dz;
                    dvraw_dx; dvraw_dy; - dvraw_dz]).

(** [project3]: the keypoint, and the Jacobian when the caller passes a
    matrix to receive it. *)
Definition project3 (want_jacobian : bool) : Vector2d * option Matrix23 :=
  (out_keypoint, if want_jacobian then Some out_jacobian_point else None).
End Project.

(** *** Accessors *)

Definition getIntrinsicParameters (cam : OCam) : VectorXd :=
  let intrinsics := uninitialized 7 in
  let intrinsics :=
    fold_left (fun v idx => set_coeff v idx (coeff (polynomial_ cam) idx))
              (seq 0 5) intrinsics in
  let intrinsics := set_coeff intrinsics 5 (x2 (principal_point_ cam)) in
  let intrinsics := set_coeff intrinsics 6 (y2 (principal_point_ cam)) in
  intrinsics.

Definition getDistortionParameters (cam : OCam) : VectorXd :=
  let distortion := uninitialized 4 in
  let distortion := set_coeff distortion 0 (coeff2 (affine_correction_ cam) 0 0) in
  let distortion := set_coeff distortion 1 (coeff2 (affine_correction_ cam) 0 1) in
  let distortion := set_coeff distortion 2 (coeff2 (affine_correction_ cam) 1 0) in
  let distortion := set_coeff distortion 3 (coeff2 (affine_correction_ cam) 1 1) in
  distortion.

(** ** Formatted input from a character stream

    [loadOCam] reads its numbers with [operator>>] on a [std::ifstream].
    The stream is modelled by the characters still to be read and the two
    state bits that extraction can set; the extraction of an [int] and of
    a [double] follows the standard library (C locale, decimal base,
    whitespace skipping on). *)

Module IStream.

Record istream := mkIStream
  { buffer : list ascii; eofbit : bool; failbit : bool }.

Definition open (content : string) : istream :=
  mkIStream (list_ascii_of_string content) false false.

Definition good (s : istream) : bool := negb (eofbit s) && negb (failbit s).

Definition setstate (s : istream) (eof fail : bool) : istream :=
  mkIStream (buffer s) (eofbit s || eof) (failbit s || fail).

Definition isspace (c : ascii) : bool :=
  let n := nat_of_ascii c in
  ((n =? 32) || ((9 <=? n) && (n <=? 13)))%nat.

Definition isdigit (c : ascii) : bool :=
  let n := nat_of_ascii c in ((48 <=? n) && (n <=? 57))%nat.

Definition digit_value (c : ascii) : Z := Z.of_nat (nat_of_ascii c - 48).

Fixpoint skipws (l : list ascii) : list ascii :=
  match l with
  | c :: rest => if isspace c then skipws rest else l
  | [] => []
  end.

(** The longest prefix of digits, and what follows it. *)
Fixpoint take_digits (l : list ascii) : list ascii * list ascii :=
  match l with
  | c :: rest =>
      if isdigit c
      then let (ds, tl) := take_digits rest in (c :: ds, tl)
      else ([], l)
  | [] => ([], [])
  end.

Definition digits_value (ds : list ascii) : Z :=
  fold_left (fun acc c => 10 * acc + digit_value c)%Z ds 0%Z.

(** An optional sign: whether it is a minus, and what follows it. *)
Definition take_sign (l : list ascii) : bool * list ascii :=
  match l with
  | "-"%char :: rest => (true, rest)
  | "+"%char :: rest => (false, rest)
  | _ => (false, l)
  end.

(** The sentry of a formatted extraction: a stream that is not good
    fails; otherwise whitespace is skipped, and running into the end of
    the input there sets both bits. *)
Definition sentry (s : istream) : istream * bool :=
  if good s then
    match skipws (buffer s) with
    | [] => (mkIStream [] true true, false)
    | rest => (mkIStream rest (eofbit s) (failbit s), true)
    end
  else (setstate s false true, false).

(** The state after the characters of a number have been taken:
    [rest] is what remains, the end of the input sets [eofbit], a text
    that is not a number sets [failbit]. *)
Definition after_number (s : istream) (rest : list ascii) (ok : bool)
    : istream :=
  setstate (mkIStream rest (eofbit s) (failbit s))
           (match rest with [] => true | _ => false end) (negb ok).

Definition int_min : Z := (- 2 ^ 31)%Z.
Definition int_max : Z := (2 ^ 31 - 1)%Z.

(** [is >> i] for an [int]: the new stream, and the value stored in [i]
    ([None] when the sentry fails and [i] is not written). *)
Definition extract_int (s : istream) : istream * option Z :=
  let (s1, ok) := sentry s in
  if ok then
    let (negative, l1) := take_sign (buffer s1) in
    let (ds, l2) := take_digits l1 in
    let result := digits_value ds in
    let v := if negative then (- result)%Z else result in
    match ds with
    | [] => (after_number s1 l2 false, Some 0%Z)
    | _ =>
        if (v <? int_min)%Z then (after_number s1 l2 false, Some int_min)
        else if (int_max <? v)%Z then (after_number s1 l2 false, Some int_max)
        else (after_number s1 l2 true, Some v)
    end
  else (s1, None).

(** The value of the decimal text [mantissa * 10 ^ exponent]. *)
Definition decimal (mantissa exponent : Z) : Q :=
  if (0 <=? exponent)%Z
  then Qmake (mantissa * 10 ^ exponent) 1
  else Qmake mantissa (Z.to_pos (10 ^ (- exponent))).

Definition is_e (c : ascii) : bool :=
  match c with "e"%char | "E"%char => true | _ => false end.

(** [is >> d] for a [double]: sign, digits with at most one decimal
    point, then, after at least one digit, an exponent.  The text must
    hold a digit, and a digit after the exponent mark when there is one.
    The value is that of the decimal text. *)
Definition extract_double (s : istream) : istream * option Q :=
  let (s1, ok) := sentry s in
  if ok then
    let (negative, l1) := take_sign (buffer s1) in
    let (int_ds, l2) := take_digits l1 in
    let (frac_ds, l3) :=
      match l2 with
      | "."%char :: l => take_digits l
      | _ => ([], l2)
      end in
    let found_mantissa :=
      match int_ds ++ frac_ds with [] => false | _ => true end in
    let '(exponent, exp_ok, l4) :=
      match l3 with
      | c :: l =>
          if is_e c && found_mantissa then
            let (exp_negative, l') := take_sign l in
            let (exp_ds, l'') := take_digits l' in
            let e := digits_value exp_ds in
            (if exp_negative then (- e)%Z else e,
             match exp_ds with [] => false | _ => true end, l'')
          else (0%Z, true, l3)
      | [] => (0%Z, true, l3)
      end in
    if found_mantissa && exp_ok then
      let m := digits_value (int_ds ++ frac_ds) in
      let m := if negative then (- m)%Z else m in
      (after_number s1 l4 true,
       Some (decimal m (exponent - Z.of_nat (List.length frac_ds))))
    else (after_number s1 l4 false, Some 0%Q)
  else (s1, None).

End IStream.

Import IStream.

(** ** Loading the parameters *)

(** The local variables of [loadOCam].  The reals are kept as the exact
    value of the decimal text that was read. *)
Record load_locals := mkLocals
  { l_image_size : list Z;
    l_polynomial : list Q;
    l_principal_point : list Q;
    l_distortion : list Q;
    l_inverse_polynomial : list Q }.

Definition locals_start : load_locals :=
  mkLocals (repeat 0%Z 2) (repeat 0%Q 5) (repeat 0%Q 2) (repeat 0%Q 3)
           (repeat 0%Q kInversePolynomialOrder).

Fixpoint store {A : Type} (v : list A) (i : nat) (a : option A) : list A :=
  match a with
  | None => v
  | Some b =>
      match v, i with
      | [], _ => []
      | _ :: w, O => b :: w
      | c :: w, S j => c :: store w j a
      end
  end.

(** [fs >> v(i0) >> v(i0 + 1) >> ...]: [n] extractions in a row into the
    coefficients of [v] from index [i0] on. *)
Fixpoint read_into {A : Type} (extract : istream -> istream * option A)
    (n i0 : nat) (sv : istream * list A) : istream * list A :=
  match n with
  | O => sv
  | S n' =>
      let (s', a) := extract (fst sv) in
      read_into extract n' (S i0) (s', store (snd sv) i0 a)
  end.

(** The body of [loadOCam] once the file is open: the stream and the
    locals where it stops, and the message of the check that failed, if
    one did. *)
Definition read_parameters (param_fs : istream)
    : istream * load_locals * option string :=
  let v := locals_start in
  let (fs1, image_size) := read_into extract_int 2 0 (param_fs, l_image_size v) in
  let v := mkLocals image_size (l_polynomial v) (l_principal_point v)
                    (l_distortion v) (l_inverse_polynomial v) in
  if negb (good fs1) then (fs1, v, Some "Reading image size fails."%string) else
  let (fs2, polynomial) := read_into extract_double 5 0 (fs1, l_polynomial v) in
  let v := mkLocals (l_image_size v) polynomial (l_principal_point v)
                    (l_distortion v) (l_inverse_polynomial v) in
  if negb (good fs2) then (fs2, v, Some "Reading polynomial fails."%string) else
  let (fs3, principal_point) :=
    read_into extract_double 2 0 (fs2, l_principal_point v) in
  let v := mkLocals (l_image_size v) (l_polynomial v) principal_point
                    (l_distortion v) (l_inverse_polynomial v) in
  if negb (good fs3) then (fs3, v, Some "Reading principle point fails."%string) else
  let (fs4, distortion) := read_into extract_double 3 0 (fs3, l_distortion v) in
  let v := mkLocals (l_image_size v) (l_polynomial v) (l_principal_point v)
                    distortion (l_inverse_polynomial v) in
  if negb (good fs4) then (fs4, v, Some "Reading distortion fails."%string) else
  let (fs5, inverse_polynomial) :=
    read_into extract_double kInversePolynomialOrder 0
              (fs4, l_inverse_polynomial v) in
  let v := mkLocals (l_image_size v) (l_polynomial v) (l_principal_point v)
                    (l_distortion v) inverse_polynomial in
  if negb (good fs5)
  then (fs5, v, Some "Reading inverse polynomial fails."%string)
  else (fs5, v, None).

(** What a call of [loadOCam] comes to: the null pointer when the file does
    not open, the end of the process when a check fails, a camera
    otherwise. *)
Inductive load_result :=
| NullPtr
| Fatal (message : string)
| Loaded (cam : OCam).

(** The files that can be opened, by name, with their content. *)
Definition filesystem := string -> option string.

Definition doubles (l : list Q) : VectorXd := map Q2R l.

Definition loadOCam (files : filesystem) (parameter_file : string)
    : load_result :=
  match files parameter_file with
  | None => NullPtr
  | Some content =>
      match read_parameters (open content) with
      | (_, _, Some message) => Fatal message
      | (_, v, None) =>
          Loaded (newOCam
                    (mkVector2i (nth 0 (l_image_size v) 0%Z)
                                (nth 1 (l_image_size v) 0%Z))
                    (doubles (l_polynomial v))
                    (mkVector2d (coeff (doubles (l_principal_point v)) 0)
                                (coeff (doubles (l_principal_point v)) 1))
                    (mkVector3d (coeff (doubles (l_distortion v)) 0)
                                (coeff (doubles (l_distortion v)) 1)
                                (coeff (doubles (l_distortion v)) 2))
                    (doubles (l_inverse_polynomial v)))
      end
  end.

(** The parameter file of the loader scenario, and the same file cut
    right after its last digit. *)
Definition scenario_file : string :=
"640 480
-100.0 0.0 0.001 0.0 0.0
320.0 240.0
1.0 0.0 0.0
0.0 1.0 0.0 0.0 0.0 0.0 0.0 0.0 0.0 0.0 0.0 0.0
".

Definition scenario_file_cut : string :=
"640 480
-100.0 0.0 0.001 0.0 0.0
320.0 240.0
1.0 0.0 0.0
0.0 1.0 0.0 0.0 0.0 0.0 0.0 0.0 0.0 0.0 0.0 0.0".


(** The values that the scenario file holds, as [loadOCam] reads them. *)
Definition scenario_locals : load_locals :=
  mkLocals [640%Z; 480%Z]
           [(-100.0)%Q; 0.0%Q; 0.001%Q; 0.0%Q; 0.0%Q]
           [320.0%Q; 240.0%Q]
           [1.0%Q; 0.0%Q; 0.0%Q]
           [0.0%Q; 1.0%Q; 0.0%Q; 0.0%Q; 0.0%Q; 0.0%Q;
            0.0%Q; 0.0%Q; 0.0%Q; 0.0%Q; 0.0%Q; 0.0%Q].

(** A file system that holds one file. *)
Definition single_file (name content : string) : filesystem :=
  fun n => if String.eqb n name then Some content else None.

(** The camera that the scenario file describes. *)
Definition scenario_camera : OCam :=
  newOCam (mkVector2i 640 480) [-100; 0; 0.001; 0; 0]
          (mkVector2d 320 240) (mkVector3d 1 0 0)
          [0; 1; 0; 0; 0; 0; 0; 0; 0; 0; 0; 0].

(** ** The life of a camera

    After its construction a camera is only reached through its member
    functions, all of them [const]: a call yields a value and leaves the
    object as it was. *)

Inductive operation :=
| CallBackProject3 (keypoint : Vector2d)
| CallProject3 (point_3d : Vector3d) (want_jacobian : bool)
| CallPrint
| CallGetIntrinsicParameters
| CallGetDistortionParameters.

Inductive returned :=
| Bearing (v : Vector3d)
| Projection (r : Vector2d * option Matrix23)
| Printed
| Parameters (v : VectorXd).

(** The object after the call, and what the call gave. *)
Definition call (cam : OCam) (op : operation) : OCam * returned :=
  match op with
  | CallBackProject3 keypoint => (cam, Bearing (backProject3 cam keypoint))
  | CallProject3 p want => (cam, Projection (project3 cam p want))
  | CallPrint => (cam, Printed)
  | CallGetIntrinsicParameters => (cam, Parameters (getIntrinsicParameters cam))
  | CallGetDistortionParameters =>
      (cam, Parameters (getDistortionParameters cam))
  end.

Definition after_calls (cam : OCam) (ops : list operation) : OCam :=
  fold_left (fun c op => fst (call c op)) ops cam.

(** ** Derivatives

    [f] is differentiable at [p] with gradient [g]: near [p] the function
    is [f p + g . h] up to an error that is small against the length of
    [h]. *)
Definition differentiable_at (f : Vector3d -> R) (p g : Vector3d) : Prop :=
  forall eps : R, 0 < eps ->
  exists delta : R, 0 < delta /\
    forall h : Vector3d, norm3 h < delta ->
      Rabs (f (add3 p h) - f p - dot3 g h) <= eps * norm3 h.

(** A bound on the linear part [g . h] against the length of [h]. *)
Definition grad_bound (g : Vector3d) : R :=
  Rabs (x3 g) + Rabs (y3 g) + Rabs (z3 g).

(** The partial derivatives at [p], as derivatives of a function of one
    real variable. *)
Definition partial_x (f : Vector3d -> R) (p : Vector3d) (l : R) : Prop :=
  derivable_pt_lim (fun t => f (mkVector3d t (y3 p) (z3 p))) (x3 p) l.
Definition partial_y (f : Vector3d -> R) (p : Vector3d) (l : R) : Prop :=
  derivable_pt_lim (fun t => f (mkVector3d (x3 p) t (z3 p))) (y3 p) l.
Definition partial_z (f : Vector3d -> R) (p : Vector3d) (l : R) : Prop :=
  derivable_pt_lim (fun t => f (mkVector3d (x3 p) (y3 p) t)) (z3 p) l.

(** The rows of a Jacobian. *)
Definition row0 (m : Matrix23) : Vector3d := mkVector3d (j00 m) (j01 m) (j02 m).
Definition row1 (m : Matrix23) : Vector3d := mkVector3d (j10 m) (j11 m) (j12 m).

(** ** Directions *)

(** [u] points the same way as [v]: it is [v] scaled by a positive
    factor. *)
Definition same_direction (u v : Vector3d) : Prop :=
  exists k : R, 0 < k /\ u = scale3 k v.

(** The polynomial of the back projection at a radius. *)
Definition polynomial_at (cam : OCam) (r : R) : R :=
  let poly := coeff (polynomial_ cam) in
  poly 0%nat + poly 1%nat * r + poly 2%nat * r ^ 2 + poly 3%nat * r ^ 3
  + poly 4%nat * r ^ 4.

(** ** Numbers as a parameter file writes them

    The texts below are used to state what [loadOCam] does on the files it
    is meant for: numbers in plain decimal notation, each followed by
    whitespace. *)

Definition all_space (l : list ascii) : bool := forallb isspace l.
Definition all_digits (l : list ascii) : bool := forallb isdigit l.

(** A separator: at least one character, whitespace only. *)
Definition separator (sep : list ascii) : bool :=
  match sep with
  | [] => false
  | _ => all_space sep
  end.

(** An integer: an optional minus sign and at least one digit, with a
    value that an [int] holds. *)
Record int_text := mkIntText { it_minus : bool; it_digits : list ascii }.

Definition int_chars (t : int_text) : list ascii :=
  ((if it_minus t then ["-"%char] else []) ++ it_digits t)%list.

Definition int_value (t : int_text) : Z :=
  if it_minus t then (- digits_value (it_digits t))%Z
  else digits_value (it_digits t).

Definition int_ok (t : int_text) : bool :=
  match it_digits t with
  | [] => false
  | _ => all_digits (it_digits t)
         && (int_min <=? int_value t)%Z && (int_value t <=? int_max)%Z
  end.

(** A real: an optional minus sign, at least one digit and, optionally, a
    decimal point followed by digits. *)
Record real_text := mkRealText
  { rt_minus : bool; rt_int : list ascii; rt_frac : option (list ascii) }.

Definition frac_digits (t : real_text) : list ascii :=
  match rt_frac t with Some f => f | None => [] end.

Definition real_chars (t : real_text) : list ascii :=
  ((if rt_minus t then ["-"%char] else []) ++ rt_int t
   ++ match rt_frac t with Some f => "."%char :: f | None => [] end)%list.

Definition real_value (t : real_text) : Q :=
  let m := digits_value (rt_int t ++ frac_digits t) in
  decimal (if rt_minus t then (- m)%Z else m)
          (- Z.of_nat (List.length (frac_digits t))).

Definition real_ok (t : real_text) : bool :=
  match rt_int t with
  | [] => false
  | _ => all_digits (rt_int t) && all_digits (frac_digits t)
  end.

(** Numbers written one after the other, each with its separator. *)
Definition written {T : Type} (chars : T -> list ascii)
    (items : list (T * list ascii)) : list ascii :=
  flat_map (fun item => (chars (fst item) ++ snd item)%list) items.

Definition items_ok {T : Type} (ok : T -> bool)
    (items : list (T * list ascii)) : bool :=
  forallb (fun item => ok (fst item) && separator (snd item)) items.

Definition values {T A : Type} (value : T -> A)
    (items : list (T * list ascii)) : list A :=
  map (fun item => value (fst item)) items.

(** A character with which the text of a number can start. *)
Definition number_start (c : ascii) : bool :=
  isdigit c || Ascii.eqb c "-" || Ascii.eqb c "+" || Ascii.eqb c ".".

(** No number can be read from [l]: after its whitespace it is at its end,
    or at a character with which no number starts. *)
Definition no_number (l : list ascii) : bool :=
  match skipws l with
  | [] => true
  | c :: _ => negb (number_start c)
  end.

(** The stream [s] with the characters [more] after those it holds. *)
Definition with_more (s : istream) (more : list ascii) : istream :=
  mkIStream (buffer s ++ more) (eofbit s) (failbit s).

(** The two later stages of [extract_double], by name: the fraction after
    the integer digits, and the exponent after the mantissa. *)
Definition take_fraction (l2 : list ascii) : list ascii * list ascii :=
  match l2 with
  | "."%char :: l => take_digits l
  | _ => ([], l2)
  end.

Definition take_exponent (found_mantissa : bool) (l3 : list ascii)
    : Z * bool * list ascii :=
  match l3 with
  | c :: l =>
      if is_e c && found_mantissa then
        let (exp_negative, l') := take_sign l in
        let (exp_ds, l'') := take_digits l' in
        let e := digits_value exp_ds in
        (if exp_negative then (- e)%Z else e,
         match exp_ds with [] => false | _ => true end, l'')
      else (0%Z, true, l3)
  | [] => (0%Z, true, l3)
  end.

(** The check that fails when the file stops after [n] of its 22 reals. *)
Definition truncation_message (n : nat) : string :=
  if (n <? 5)%nat then "Reading polynomial fails."
  else if (n <? 7)%nat then "Reading principle point fails."
  else if (n <? 10)%nat then "Reading distortion fails."
  else "Reading inverse polynomial fails.".

(** ** Properties *)

(** *** Helper facts about the Eigen operations *)

Lemma squaredNorm3_nonneg (v : Vector3d) : 0 <= squaredNorm3 v.
Proof. unfold squaredNorm3. nra. Qed.

Lemma squaredNorm3_zero (v : Vector3d) :
  squaredNorm3 v = 0 -> v = mkVector3d 0 0 0.
Proof.
  destruct v as [a b c]. unfold squaredNorm3. simpl. intros H.
  assert (a = 0) by nra. assert (b = 0) by nra. assert (c = 0) by nra.
  subst. reflexivity.
Qed.

Lemma squaredNorm3_pos (v : Vector3d) :
  v <> mkVector3d 0 0 0 -> 0 < squaredNorm3 v.
Proof.
  intros Hv. destruct (Rle_lt_or_eq_dec _ _ (squaredNorm3_nonneg v)) as [H | H].
  - exact H.
  - exfalso. apply Hv. apply squaredNorm3_zero. symmetry. exact H.
Qed.

Lemma norm3_nonneg (h : Vector3d) : 0 <= norm3 h.
Proof. apply sqrt_pos. Qed.

Lemma abs_le_norm3 (h : Vector3d) :
  Rabs (x3 h) <= norm3 h /\ Rabs (y3 h) <= norm3 h /\ Rabs (z3 h) <= norm3 h.
Proof.
  destruct h as [a b c]. unfold norm3, squaredNorm3. simpl.
  repeat split; rewrite <- sqrt_Rsqr_abs; apply sqrt_le_1_alt; unfold Rsqr; nra.
Qed.

Lemma normalize_nonzero (v : Vector3d) :
  v <> mkVector3d 0 0 0 -> normalize v = div3 v (norm3 v).
Proof.
  intros Hv. unfold normalize, norm3.
  destruct (Rlt_dec 0 (squaredNorm3 v)) as [_ | Hn].
  - reflexivity.
  - exfalso. apply Hn. apply squaredNorm3_pos. exact Hv.
Qed.

Lemma norm3_div3 (v : Vector3d) :
  v <> mkVector3d 0 0 0 -> norm3 (div3 v (norm3 v)) = 1.
Proof.
  intros Hv. pose proof (squaredNorm3_pos v Hv) as Hpos.
  assert (Hn : 0 < norm3 v) by (apply sqrt_lt_R0; exact Hpos).
  assert (Hsq : norm3 v * norm3 v = squaredNorm3 v)
    by (apply sqrt_sqrt; lra).
  unfold norm3 at 1.
  replace (squaredNorm3 (div3 v (norm3 v))) with 1; [apply sqrt_1 |].
  set (n := norm3 v) in *.
  destruct v as [a b c]; unfold div3, squaredNorm3 in *; simpl in *.
  transitivity ((a * a + b * b + c * c) / (n * n)).
  - rewrite <- Hsq. field. lra.
  - field. lra.
Qed.

Lemma normalize_scale (k : R) (p : Vector3d) :
  0 < k -> p <> mkVector3d 0 0 0 ->
  normalize (scale3 k p) = div3 p (norm3 p).
Proof.
  intros Hk Hp. pose proof (squaredNorm3_pos p Hp) as Hpos.
  assert (Hsq : squaredNorm3 (scale3 k p) = (k * k) * squaredNorm3 p).
  { destruct p as [a b c]. unfold squaredNorm3, scale3. simpl. ring. }
  assert (Hnorm : sqrt (squaredNorm3 (scale3 k p)) = k * norm3 p).
  { rewrite Hsq. rewrite sqrt_mult by nra. rewrite sqrt_square by lra.
    reflexivity. }
  assert (Hn : 0 < norm3 p) by (apply sqrt_lt_R0; exact Hpos).
  unfold normalize. destruct (Rlt_dec 0 (squaredNorm3 (scale3 k p))) as [_ | Hneg].
  - rewrite Hnorm. destruct p as [a b c]. unfold div3, scale3. simpl.
    set (n := norm3 _) in *. f_equal; field; lra.
  - exfalso. apply Hneg. rewrite Hsq.
    repeat apply Rmult_lt_0_compat; assumption.
Qed.

Lemma same_direction_unit (p : Vector3d) :
  p <> mkVector3d 0 0 0 -> same_direction (div3 p (norm3 p)) p.
Proof.
  intros Hp. pose proof (squaredNorm3_pos p Hp) as Hpos.
  assert (Hn : 0 < norm3 p) by (apply sqrt_lt_R0; exact Hpos).
  exists (/ norm3 p). split.
  - apply Rinv_0_lt_compat. exact Hn.
  - destruct p as [a b c]. unfold div3, scale3. simpl.
    set (n := norm3 _) in *. f_equal; field; lra.
Qed.

Lemma inverse_right (m : Matrix2d) :
  determinant m <> 0 -> mul_mm m (inverse m) = identity2.
Proof.
  intros Hd. destruct m as [a b c d].
  unfold mul_mm, inverse, identity2, determinant in *. simpl in *.
  f_equal; field; exact Hd.
Qed.

Lemma rectified_of_projection (m : Matrix2d) (v pp : Vector2d) :
  determinant m <> 0 ->
  mul_mv (inverse m) (sub2 (add2 (mul_mv m v) pp) pp) = v.
Proof.
  intros Hd. destruct m as [a b c d], v as [vx vy], pp as [px py].
  unfold mul_mv, inverse, sub2, add2, determinant in *. simpl in *.
  f_equal; field; exact Hd.
Qed.

(** *** Construction *)

(** C4. The constructor stores the matrix with rows [1, d2] and [d1, d0],
    and [getDistortionParameters] returns [1, d2, d1, d0]. *)
Theorem distortion_layout (image_size : Vector2i) (polynomial : VectorXd)
    (principal_point : Vector2d) (inverse_polynomial : VectorXd)
    (d0 d1 d2 : R) :
  let cam := newOCam image_size polynomial principal_point (mkVector3d d0 d1 d2)
                     inverse_polynomial in
  affine_correction_ cam = mkMatrix2d 1 d2 d1 d0 /\
  (coeff2 (affine_correction_ cam) 0 0 = 1 /\
   coeff2 (affine_correction_ cam) 0 1 = d2 /\
   coeff2 (affine_correction_ cam) 1 0 = d1 /\
   coeff2 (affine_correction_ cam) 1 1 = d0) /\
  getDistortionParameters cam = [1; d2; d1; d0].
Proof.
  cbv zeta. repeat split.
Qed.

Lemma after_calls_same (cam : OCam) (ops : list operation) :
  after_calls cam ops = cam.
Proof.
  unfold after_calls. induction ops as [| op ops IH]; simpl.
  - reflexivity.
  - destruct op; simpl; exact IH.
Qed.

(** C8. For a distortion triple with 1 * d0 - d2 * d1 <> 0 the constructed
    camera has affineCorrection * affineCorrectionInverse = identity, and
    it still has after any sequence of calls of its member functions. *)
Theorem affine_inverse_invariant (image_size : Vector2i)
    (polynomial : VectorXd) (principal_point : Vector2d)
    (inverse_polynomial : VectorXd) (d0 d1 d2 : R) (ops : list operation) :
  1 * d0 - d2 * d1 <> 0 ->
  let cam := newOCam image_size polynomial principal_point (mkVector3d d0 d1 d2)
                     inverse_polynomial in
  mul_mm (affine_correction_ cam) (affine_correction_inverse_ cam) = identity2
  /\ mul_mm (affine_correction_ (after_calls cam ops))
            (affine_correction_inverse_ (after_calls cam ops)) = identity2.
Proof.
  intros Hd cam. rewrite after_calls_same.
  assert (H : mul_mm (affine_correction_ cam) (affine_correction_inverse_ cam)
              = identity2).
  { unfold cam, newOCam. cbn [affine_correction_ affine_correction_inverse_].
    apply inverse_right. unfold determinant. cbn. lra. }
  split; exact H.
Qed.

Lemma affine_inverse_invariant_witness :
  1 * 2 - 3 * (1 / 2) <> 0 /\
  let cam := newOCam (mkVector2i 640 480) [-100; 0; 0.001; 0; 0]
                     (mkVector2d 320 240) (mkVector3d 2 (1 / 2) 3)
                     [0; 1; 0; 0; 0; 0; 0; 0; 0; 0; 0; 0] in
  let ops := [CallProject3 (mkVector3d 3 4 (-2)) true;
              CallBackProject3 (mkVector2d 100 50);
              CallGetDistortionParameters] in
  mul_mm (affine_correction_ cam) (affine_correction_inverse_ cam) = identity2
  /\ mul_mm (affine_correction_ (after_calls cam ops))
            (affine_correction_inverse_ (after_calls cam ops)) = identity2.
Proof.
  assert (H : 1 * 2 - 3 * (1 / 2) <> 0) by lra.
  split; [exact H |].
  exact (affine_inverse_invariant (mkVector2i 640 480) [-100; 0; 0.001; 0; 0]
           (mkVector2d 320 240) [0; 1; 0; 0; 0; 0; 0; 0; 0; 0; 0; 0]
           2 (1 / 2) 3
           [CallProject3 (mkVector3d 3 4 (-2)) true;
            CallBackProject3 (mkVector2d 100 50);
            CallGetDistortionParameters] H).
Defined.

(** *** The scenario camera *)

Lemma scenario_affine : affine_correction_ scenario_camera = identity2.
Proof. reflexivity. Qed.

Lemma scenario_affine_inverse :
  affine_correction_inverse_ scenario_camera = identity2.
Proof.
  unfold scenario_camera, newOCam, inverse, determinant, identity2. cbn.
  f_equal; field.
Qed.

Lemma scenario_bp_raw :
  bp_raw scenario_camera (mkVector2d 320 240) = mkVector3d 0 0 100.
Proof.
  unfold bp_raw, bp_z, bp_rho, bp_rectified.
  rewrite scenario_affine_inverse. unfold norm2, squaredNorm2. cbn.
  replace ((1 * (320 - 320) + 0 * (240 - 240))) with 0 by ring.
  replace ((0 * (320 - 320) + 1 * (240 - 240))) with 0 by ring.
  replace (0 * 0 + 0 * 0) with 0 by ring. rewrite sqrt_0.
  f_equal. ring.
Qed.

(** *** Back projection *)

Lemma bp_z_polynomial (cam : OCam) (keypoint : Vector2d) :
  bp_z cam keypoint = - polynomial_at cam (bp_rho cam keypoint).
Proof. unfold bp_z, polynomial_at. cbv zeta. ring. Qed.

(** C2. [backProject3] returns the normalization of
    (rectified.x, rectified.y, zRaw) where
    rectified = affineCorrectionInverse * (keypoint - principalPoint),
    rho = ||rectified|| and
    zRaw = -(poly[0] + poly[1] rho + poly[2] rho^2 + poly[3] rho^3
             + poly[4] rho^4). *)
Theorem backProject3_formula (cam : OCam) (keypoint : Vector2d) :
  let rectified :=
    mul_mv (affine_correction_inverse_ cam)
           (sub2 keypoint (principal_point_ cam)) in
  let rho := sqrt (x2 rectified * x2 rectified + y2 rectified * y2 rectified) in
  let poly := coeff (polynomial_ cam) in
  let zRaw :=
    - (poly 0%nat + poly 1%nat * rho + poly 2%nat * rho ^ 2
       + poly 3%nat * rho ^ 3 + poly 4%nat * rho ^ 4) in
  backProject3 cam keypoint =
  normalize (mkVector3d (x2 rectified) (y2 rectified) zRaw).
Proof.
  intros rectified r poly zRaw.
  unfold backProject3, bp_raw. f_equal. f_equal.
  unfold bp_z, bp_rho, norm2, squaredNorm2.
  change (bp_rectified cam keypoint) with rectified.
  fold r. fold poly. subst zRaw. cbv zeta. ring.
Qed.

(** C7. When the vector assembled before the normalization is not the
    zero vector, the vector returned by [backProject3] has norm 1. *)
Theorem backProject3_unit_norm (cam : OCam) (keypoint : Vector2d) :
  bp_raw cam keypoint <> mkVector3d 0 0 0 ->
  norm3 (backProject3 cam keypoint) = 1.
Proof.
  intros Hv. unfold backProject3.
  rewrite normalize_nonzero by exact Hv.
  apply norm3_div3. exact Hv.
Qed.

Lemma backProject3_unit_norm_witness :
  bp_raw scenario_camera (mkVector2d 320 240) <> mkVector3d 0 0 0 /\
  norm3 (backProject3 scenario_camera (mkVector2d 320 240)) = 1.
Proof.
  assert (H : bp_raw scenario_camera (mkVector2d 320 240) <> mkVector3d 0 0 0).
  { rewrite scenario_bp_raw. intros E. apply (f_equal z3) in E.
    simpl in E. lra. }
  split; [exact H | apply backProject3_unit_norm; exact H].
Defined.

(** *** Projection: the keypoint *)

(** The loop of [project3] stores the powers of [theta]. *)
Lemma theta_powers_spec (th : R) (i : nat) :
  (i < kInversePolynomialOrder)%nat -> coeff (theta_powers th) i = th ^ i.
Proof.
  intros Hi. unfold kInversePolynomialOrder in Hi.
  do 12 (destruct i as [| i]; [unfold theta_powers, coeff; simpl; ring |]).
  lia.
Qed.

Lemma rho_polynomial (cam : OCam) (p : Vector3d) :
  rho cam p =
  sum_f_R0 (fun i => coeff (inverse_polynomial_ cam) i * theta p ^ i) 11.
Proof.
  unfold rho, dot, kInversePolynomialOrder.
  cbv [seq fold_left sum_f_R0].
  rewrite !theta_powers_spec by (unfold kInversePolynomialOrder; lia).
  ring.
Qed.

Lemma xy_norm_sqr (p : Vector3d) : xy_norm p ^ 2 = xy_norm2 p.
Proof.
  unfold xy_norm. simpl. rewrite Rmult_1_r. apply sqrt_sqrt.
  unfold xy_norm2. nra.
Qed.

Lemma xyz_norm_sqr_pos (p : Vector3d) : 0 < xy_norm p -> 0 < xyz_norm_sqr p.
Proof.
  intros H. unfold xyz_norm_sqr. rewrite <- xy_norm_sqr. nra.
Qed.

Lemma xy_norm_2_0 (z : R) : xy_norm (mkVector3d 2 0 z) = 2.
Proof.
  unfold xy_norm, xy_norm2, pr_x, pr_y. simpl.
  replace (2 * (2 * 1) + 0 * (0 * 1)) with (2 * 2) by ring.
  apply sqrt_square. lra.
Qed.

Lemma xy_norm_pos_nonzero (p : Vector3d) :
  0 < xy_norm p -> p <> mkVector3d 0 0 0.
Proof.
  intros Hn E. subst p. unfold xy_norm, xy_norm2, pr_x, pr_y in Hn.
  simpl in Hn. replace (0 * (0 * 1) + 0 * (0 * 1)) with 0 in Hn by ring.
  rewrite sqrt_0 in Hn. lra.
Qed.

(** C1. For a point off the optical axis (xyNorm > 0), [project3] returns
    affineCorrection * (x/xyNorm * rho, y/xyNorm * rho) + principalPoint
    with theta = atan(-z / xyNorm) and rho the sum over i = 0..11 of
    inversePolynomial[i] * theta^i. *)
Theorem project3_keypoint (cam : OCam) (x y z : R) (want_jacobian : bool) :
  let xyNorm := sqrt (x ^ 2 + y ^ 2) in
  let theta := atan (- z / xyNorm) in
  let rho :=
    sum_f_R0 (fun i => coeff (inverse_polynomial_ cam) i * theta ^ i) 11 in
  0 < xyNorm ->
  fst (project3 cam (mkVector3d x y z) want_jacobian) =
  add2 (mul_mv (affine_correction_ cam)
               (mkVector2d (x / xyNorm * rho) (y / xyNorm * rho)))
       (principal_point_ cam).
Proof.
  intros xyNorm th r _. unfold project3, out_keypoint, raw_uv. simpl fst.
  rewrite rho_polynomial. reflexivity.
Qed.

Lemma project3_keypoint_witness :
  let xyNorm := sqrt (3 ^ 2 + 4 ^ 2) in
  let theta := atan (- -2 / xyNorm) in
  let rho :=
    sum_f_R0
      (fun i => coeff (inverse_polynomial_ scenario_camera) i * theta ^ i) 11 in
  0 < xyNorm /\
  fst (project3 scenario_camera (mkVector3d 3 4 (-2)) false) =
  add2 (mul_mv (affine_correction_ scenario_camera)
               (mkVector2d (3 / xyNorm * rho) (4 / xyNorm * rho)))
       (principal_point_ scenario_camera).
Proof.
  intros xyNorm th r.
  assert (H : 0 < xyNorm) by (apply sqrt_lt_R0; lra).
  split; [exact H |].
  exact (project3_keypoint scenario_camera 3 4 (-2) false H).
Defined.

(** *** The partial derivatives of theta used by the Jacobian *)

(** C5 as stated fails: at the point (2, 0, -1), where xyNorm = 2, z' = 1
    and xyzNormSqr = 5, the code uses dtheta/dx = -1/5 while
    -x z' / xyzNormSqr is -2/5. *)
Lemma dtheta_dx_counterexample :
  let p := mkVector3d 2 0 (-1) in
  let z' := - z3 p in
  let xyzNormSqr := xy_norm p ^ 2 + z' ^ 2 in
  0 < xy_norm p /\
  dtheta_dx p = - 1 / 5 /\
  - x3 p * z' / xyzNormSqr = - 2 / 5 /\
  dtheta_dx p <> - x3 p * z' / xyzNormSqr.
Proof.
  cbv zeta.
  assert (E : dtheta_dx (mkVector3d 2 0 (-1)) = - 1 / 5).
  { unfold dtheta_dx, z_by_xy_norm, xyz_norm_sqr.
    rewrite <- xy_norm_sqr, xy_norm_2_0. unfold pr_x, pr_z. simpl. field. }
  rewrite E, xy_norm_2_0. simpl.
  repeat split; try lra.
  - field.
  - intros H. field_simplify in H. lra.
Qed.

(** C5, amended. The code divides z' by xyNorm before it uses it:
    dtheta/dx = -x z' / (xyNorm xyzNormSqr),
    dtheta/dy = -y z' / (xyNorm xyzNormSqr) and
    dtheta/dz' = xyNorm / xyzNormSqr,
    with xyzNormSqr = xyNorm^2 + z'^2 and z' = -z. *)
Theorem dtheta_partials (p : Vector3d) :
  let x := x3 p in
  let y := y3 p in
  let z' := - z3 p in
  let xyNorm := xy_norm p in
  let xyzNormSqr := xyNorm ^ 2 + z' ^ 2 in
  0 < xyNorm ->
  dtheta_dx p = - x * z' / (xyNorm * xyzNormSqr) /\
  dtheta_dy p = - y * z' / (xyNorm * xyzNormSqr) /\
  dtheta_dz p = xyNorm / xyzNormSqr.
Proof.
  intros x y z' xyNorm xyzNormSqr Hn.
  assert (Hs : xyz_norm_sqr p = xyzNormSqr).
  { unfold xyz_norm_sqr, xyzNormSqr, xyNorm. rewrite xy_norm_sqr. reflexivity. }
  assert (Hpos : 0 < xyzNormSqr).
  { rewrite <- Hs. apply xyz_norm_sqr_pos. exact Hn. }
  unfold dtheta_dx, dtheta_dy, dtheta_dz, z_by_xy_norm. rewrite Hs.
  change (pr_x p) with x. change (pr_y p) with y. change (pr_z p) with z'.
  change (xy_norm p) with xyNorm.
  repeat split; field; lra.
Qed.

Lemma dtheta_partials_witness :
  let p := mkVector3d 2 0 (-1) in
  0 < xy_norm p /\
  dtheta_dx p = - 2 * - -1 / (xy_norm p * (xy_norm p ^ 2 + (- -1) ^ 2)) /\
  dtheta_dy p = - 0 * - -1 / (xy_norm p * (xy_norm p ^ 2 + (- -1) ^ 2)) /\
  dtheta_dz p = xy_norm p / (xy_norm p ^ 2 + (- -1) ^ 2).
Proof.
  intros p.
  assert (H : 0 < xy_norm p) by (unfold p; rewrite xy_norm_2_0; lra).
  split; [exact H |].
  exact (dtheta_partials p H).
Defined.

(** *** Differentiable functions of a point *)

Lemma grad_bound_nonneg (g : Vector3d) : 0 <= grad_bound g.
Proof.
  unfold grad_bound.
  pose proof (Rabs_pos (x3 g)). pose proof (Rabs_pos (y3 g)).
  pose proof (Rabs_pos (z3 g)). lra.
Qed.

Lemma dot3_bound (g h : Vector3d) :
  Rabs (dot3 g h) <= grad_bound g * norm3 h.
Proof.
  destruct (abs_le_norm3 h) as (Hx & Hy & Hz).
  unfold dot3, grad_bound.
  eapply Rle_trans; [apply Rabs_triang |].
  eapply Rle_trans; [apply Rplus_le_compat_r; apply Rabs_triang |].
  rewrite !Rabs_mult.
  pose proof (Rabs_pos (x3 g)). pose proof (Rabs_pos (y3 g)).
  pose proof (Rabs_pos (z3 g)). nra.
Qed.

Lemma differentiable_at_eq (f f' : Vector3d -> R) (p g g' : Vector3d) :
  (forall q, f q = f' q) -> g = g' ->
  differentiable_at f p g -> differentiable_at f' p g'.
Proof.
  intros Hf Hg Hd eps Heps. subst g'.
  destruct (Hd eps Heps) as (delta & Hdelta & Hh).
  exists delta. split; [exact Hdelta |].
  intros h Hlt. rewrite <- !Hf. apply Hh. exact Hlt.
Qed.

Lemma differentiable_at_ext (f f' : Vector3d -> R) (p g : Vector3d) :
  (forall q, f q = f' q) ->
  differentiable_at f p g -> differentiable_at f' p g.
Proof.
  intros Hf Hd. exact (differentiable_at_eq f f' p g g Hf eq_refl Hd).
Qed.

(** Near [p] the function moves at most linearly. *)
Lemma differentiable_at_lipschitz (f : Vector3d -> R) (p g : Vector3d) :
  differentiable_at f p g ->
  exists delta, 0 < delta /\
    forall h, norm3 h < delta ->
      Rabs (f (add3 p h) - f p) <= (grad_bound g + 1) * norm3 h.
Proof.
  intros Hd. destruct (Hd 1 Rlt_0_1) as (delta & Hdelta & Hh).
  exists delta. split; [exact Hdelta |].
  intros h Hlt. specialize (Hh h Hlt). pose proof (dot3_bound g h) as Hb.
  replace (f (add3 p h) - f p)
    with ((f (add3 p h) - f p - dot3 g h) + dot3 g h) by ring.
  eapply Rle_trans; [apply Rabs_triang |]. lra.
Qed.

Lemma differentiable_at_const (c : R) (p : Vector3d) :
  differentiable_at (fun _ => c) p (mkVector3d 0 0 0).
Proof.
  intros eps Heps. exists 1. split; [lra |]. intros h _.
  unfold dot3. simpl.
  replace (c - c - (0 * x3 h + 0 * y3 h + 0 * z3 h)) with 0 by ring.
  rewrite Rabs_R0. pose proof (norm3_nonneg h). nra.
Qed.

Lemma differentiable_at_x (p : Vector3d) :
  differentiable_at x3 p (mkVector3d 1 0 0).
Proof.
  intros eps Heps. exists 1. split; [lra |]. intros h _.
  unfold dot3, add3. simpl.
  replace (x3 p + x3 h - x3 p - (1 * x3 h + 0 * y3 h + 0 * z3 h)) with 0 by ring.
  rewrite Rabs_R0. pose proof (norm3_nonneg h). nra.
Qed.

Lemma differentiable_at_y (p : Vector3d) :
  differentiable_at y3 p (mkVector3d 0 1 0).
Proof.
  intros eps Heps. exists 1. split; [lra |]. intros h _.
  unfold dot3, add3. simpl.
  replace (y3 p + y3 h - y3 p - (0 * x3 h + 1 * y3 h + 0 * z3 h)) with 0 by ring.
  rewrite Rabs_R0. pose proof (norm3_nonneg h). nra.
Qed.

Lemma differentiable_at_z (p : Vector3d) :
  differentiable_at z3 p (mkVector3d 0 0 1).
Proof.
  intros eps Heps. exists 1. split; [lra |]. intros h _.
  unfold dot3, add3. simpl.
  replace (z3 p + z3 h - z3 p - (0 * x3 h + 0 * y3 h + 1 * z3 h)) with 0 by ring.
  rewrite Rabs_R0. pose proof (norm3_nonneg h). nra.
Qed.

Lemma differentiable_at_plus (f1 f2 : Vector3d -> R) (p g1 g2 : Vector3d) :
  differentiable_at f1 p g1 -> differentiable_at f2 p g2 ->
  differentiable_at (fun q => f1 q + f2 q) p
    (mkVector3d (x3 g1 + x3 g2) (y3 g1 + y3 g2) (z3 g1 + z3 g2)).
Proof.
  intros H1 H2 eps Heps.
  destruct (H1 (eps / 2)) as (d1 & Hd1 & Hh1); [lra |].
  destruct (H2 (eps / 2)) as (d2 & Hd2 & Hh2); [lra |].
  exists (Rmin d1 d2). split; [apply Rmin_pos; assumption |].
  intros h Hlt.
  assert (L1 : norm3 h < d1) by (eapply Rlt_le_trans; [exact Hlt | apply Rmin_l]).
  assert (L2 : norm3 h < d2) by (eapply Rlt_le_trans; [exact Hlt | apply Rmin_r]).
  specialize (Hh1 h L1). specialize (Hh2 h L2).
  unfold dot3 in *. simpl.
  match goal with |- Rabs ?e <= _ =>
    replace e with ((f1 (add3 p h) - f1 p
                     - (x3 g1 * x3 h + y3 g1 * y3 h + z3 g1 * z3 h))
                    + (f2 (add3 p h) - f2 p
                       - (x3 g2 * x3 h + y3 g2 * y3 h + z3 g2 * z3 h)))
      by ring
  end.
  eapply Rle_trans; [apply Rabs_triang |]. lra.
Qed.

Lemma share_bound (a eps : R) :
  0 <= a -> 0 < eps -> 0 < eps / (3 * (a + 1)) /\ a * (eps / (3 * (a + 1))) <= eps / 3.
Proof.
  intros Ha He.
  assert (Hpos : 0 < eps / (3 * (a + 1))) by (apply Rdiv_lt_0_compat; lra).
  split; [exact Hpos |].
  replace (a * (eps / (3 * (a + 1)))) with (eps / 3 - eps / (3 * (a + 1)))
    by (field; lra).
  lra.
Qed.

Lemma differentiable_at_mult (f1 f2 : Vector3d -> R) (p g1 g2 : Vector3d) :
  differentiable_at f1 p g1 -> differentiable_at f2 p g2 ->
  differentiable_at (fun q => f1 q * f2 q) p
    (mkVector3d (f1 p * x3 g2 + f2 p * x3 g1)
                (f1 p * y3 g2 + f2 p * y3 g1)
                (f1 p * z3 g2 + f2 p * z3 g1)).
Proof.
  intros H1 H2 eps Heps.
  set (a := f1 p). set (b := f2 p).
  set (L1 := grad_bound g1 + 1). set (L2 := grad_bound g2 + 1).
  assert (HL1 : 1 <= L1) by (pose proof (grad_bound_nonneg g1); unfold L1; lra).
  assert (HL2 : 1 <= L2) by (pose proof (grad_bound_nonneg g2); unfold L2; lra).
  destruct (share_bound (Rabs b) eps (Rabs_pos b) Heps) as (He1 & Hs1).
  destruct (share_bound (Rabs a) eps (Rabs_pos a) Heps) as (He2 & Hs2).
  destruct (differentiable_at_lipschitz _ _ _ H1) as (da & Hda & Hla).
  destruct (differentiable_at_lipschitz _ _ _ H2) as (db & Hdb & Hlb).
  destruct (H1 _ He1) as (d1 & Hd1 & Hh1).
  destruct (H2 _ He2) as (d2 & Hd2 & Hh2).
  set (d3 := eps / (3 * (L1 * L2))).
  assert (HLL : 0 < L1 * L2) by nra.
  assert (Hd3 : 0 < d3) by (apply Rdiv_lt_0_compat; lra).
  exists (Rmin (Rmin da db) (Rmin (Rmin d1 d2) d3)).
  split; [repeat apply Rmin_pos; assumption |].
  intros h Hlt.
  assert (Hmin : forall u v w, w < Rmin u v -> w < u /\ w < v).
  { intros u v w Hw. split; eapply Rlt_le_trans;
      [exact Hw | apply Rmin_l | exact Hw | apply Rmin_r]. }
  apply Hmin in Hlt. destruct Hlt as (Hab & H123).
  apply Hmin in Hab. destruct Hab as (Ha & Hb).
  apply Hmin in H123. destruct H123 as (H12 & H3).
  apply Hmin in H12. destruct H12 as (Hl1 & Hl2).
  specialize (Hla h Ha). specialize (Hlb h Hb).
  specialize (Hh1 h Hl1). specialize (Hh2 h Hl2).
  fold a in Hla, Hh1. fold b in Hlb, Hh2. fold L1 in Hla. fold L2 in Hlb.
  pose proof (norm3_nonneg h) as HN. set (N := norm3 h) in *.
  set (A := f1 (add3 p h)) in *. set (B := f2 (add3 p h)) in *.
  set (e1 := A - a - dot3 g1 h) in *. set (e2 := B - b - dot3 g2 h) in *.
  match goal with |- Rabs ?e <= _ =>
    replace e with ((A - a) * (B - b) + a * e2 + b * e1)
      by (unfold e1, e2, dot3; simpl; ring)
  end.
  eapply Rle_trans; [apply Rabs_triang |].
  eapply Rle_trans; [apply Rplus_le_compat_r; apply Rabs_triang |].
  rewrite !Rabs_mult.
  assert (T1 : Rabs (A - a) * Rabs (B - b) <= eps / 3 * N).
  { assert (Hprod : Rabs (A - a) * Rabs (B - b) <= (L1 * N) * (L2 * N)).
    { apply Rmult_le_compat; try apply Rabs_pos; assumption. }
    assert (Hsmall : L1 * L2 * N <= eps / 3).
    { assert (L1 * L2 * N <= L1 * L2 * d3) by (apply Rmult_le_compat_l; lra).
      replace (L1 * L2 * d3) with (eps / 3) in H by (unfold d3; field; lra).
      exact H. }
    replace (L1 * N * (L2 * N)) with (L1 * L2 * N * N) in Hprod by ring.
    eapply Rle_trans; [exact Hprod |]. apply Rmult_le_compat_r; assumption. }
  assert (T2 : Rabs a * Rabs e2 <= eps / 3 * N).
  { eapply Rle_trans.
    - apply Rmult_le_compat_l; [apply Rabs_pos | exact Hh2].
    - rewrite <- Rmult_assoc. apply Rmult_le_compat_r; assumption. }
  assert (T3 : Rabs b * Rabs e1 <= eps / 3 * N).
  { eapply Rle_trans.
    - apply Rmult_le_compat_l; [apply Rabs_pos | exact Hh1].
    - rewrite <- Rmult_assoc. apply Rmult_le_compat_r; assumption. }
  lra.
Qed.

(** The one-variable derivative in the same form. *)
Lemma derivable_pt_lim_linear (phi : R -> R) (y l : R) :
  derivable_pt_lim phi y l ->
  forall eps, 0 < eps -> exists delta, 0 < delta /\
    forall k, Rabs k < delta ->
      Rabs (phi (y + k) - phi y - l * k) <= eps * Rabs k.
Proof.
  intros Hd eps Heps. destruct (Hd eps Heps) as (delta & Hk).
  exists delta. split; [apply cond_pos |].
  intros k Hlt. destruct (Req_dec k 0) as [E | Hne].
  - subst k. rewrite Rplus_0_r, Rmult_0_r, Rabs_R0.
    replace (phi y - phi y - 0) with 0 by ring. rewrite Rabs_R0. lra.
  - specialize (Hk k Hne Hlt).
    replace (phi (y + k) - phi y - l * k)
      with (((phi (y + k) - phi y) / k - l) * k) by (field; exact Hne).
    rewrite Rabs_mult. apply Rmult_le_compat_r; [apply Rabs_pos | lra].
Qed.

Lemma differentiable_at_comp (phi : R -> R) (f : Vector3d -> R)
    (p g : Vector3d) (l : R) :
  derivable_pt_lim phi (f p) l -> differentiable_at f p g ->
  differentiable_at (fun q => phi (f q)) p
    (mkVector3d (l * x3 g) (l * y3 g) (l * z3 g)).
Proof.
  intros Hphi Hf eps Heps.
  set (L := grad_bound g + 1).
  assert (HL : 1 <= L) by (pose proof (grad_bound_nonneg g); unfold L; lra).
  destruct (differentiable_at_lipschitz _ _ _ Hf) as (da & Hda & Hla).
  fold L in Hla.
  assert (He1 : 0 < eps / (2 * L)) by (apply Rdiv_lt_0_compat; lra).
  assert (He2 : 0 < eps / (2 * (Rabs l + 1))).
  { pose proof (Rabs_pos l). apply Rdiv_lt_0_compat; lra. }
  destruct (derivable_pt_lim_linear _ _ _ Hphi _ He1) as (dk & Hdk & Hk).
  destruct (Hf _ He2) as (d2 & Hd2 & Hh2).
  assert (Hd3 : 0 < dk / L) by (apply Rdiv_lt_0_compat; lra).
  exists (Rmin da (Rmin d2 (dk / L))).
  split; [repeat apply Rmin_pos; assumption |].
  intros h Hlt.
  assert (Hmin : forall u v w, w < Rmin u v -> w < u /\ w < v).
  { intros u v w Hw. split; eapply Rlt_le_trans;
      [exact Hw | apply Rmin_l | exact Hw | apply Rmin_r]. }
  apply Hmin in Hlt. destruct Hlt as (Ha & H23).
  apply Hmin in H23. destruct H23 as (Hl2 & Hl3).
  specialize (Hla h Ha). specialize (Hh2 h Hl2).
  pose proof (norm3_nonneg h) as HN. set (N := norm3 h) in *.
  set (k := f (add3 p h) - f p) in *.
  assert (Hksmall : Rabs k < dk).
  { eapply Rle_lt_trans; [exact Hla |].
    replace dk with (L * (dk / L)) by (field; lra).
    apply Rmult_lt_compat_l; lra. }
  specialize (Hk k Hksmall).
  replace (f p + k) with (f (add3 p h)) in Hk by (unfold k; ring).
  set (e := k - dot3 g h) in *.
  match goal with |- Rabs ?E <= _ =>
    replace E with ((phi (f (add3 p h)) - phi (f p) - l * k) + l * e)
      by (unfold e, dot3; simpl; ring)
  end.
  eapply Rle_trans; [apply Rabs_triang |]. rewrite Rabs_mult.
  assert (T1 : Rabs (phi (f (add3 p h)) - phi (f p) - l * k) <= eps / 2 * N).
  { eapply Rle_trans; [exact Hk |].
    eapply Rle_trans; [apply Rmult_le_compat_l; [lra | exact Hla] |].
    replace (eps / (2 * L) * (L * N)) with (eps / 2 * N) by (field; lra).
    lra. }
  assert (T2 : Rabs l * Rabs e <= eps / 2 * N).
  { eapply Rle_trans; [apply Rmult_le_compat_l; [apply Rabs_pos | exact Hh2] |].
    rewrite <- Rmult_assoc. apply Rmult_le_compat_r; [exact HN |].
    pose proof (Rabs_pos l) as Hl.
    replace (Rabs l * (eps / (2 * (Rabs l + 1))))
      with (eps / 2 - eps / (2 * (Rabs l + 1))) by (field; lra).
    assert (0 < eps / (2 * (Rabs l + 1))) by (apply Rdiv_lt_0_compat; lra).
    lra. }
  lra.
Qed.

Lemma differentiable_at_scal (c : R) (f : Vector3d -> R) (p g : Vector3d) :
  differentiable_at f p g ->
  differentiable_at (fun q => c * f q) p
    (mkVector3d (c * x3 g) (c * y3 g) (c * z3 g)).
Proof.
  intros Hf.
  apply (differentiable_at_eq (fun q => (fun _ => c) q * f q) _ p
           (mkVector3d (c * x3 g + f p * 0) (c * y3 g + f p * 0)
                       (c * z3 g + f p * 0))).
  - reflexivity.
  - f_equal; ring.
  - apply (differentiable_at_mult (fun _ => c) f p (mkVector3d 0 0 0) g).
    + apply differentiable_at_const.
    + exact Hf.
Qed.

Lemma derivable_pt_lim_Rinv (y : R) :
  y <> 0 -> derivable_pt_lim Rinv y (- / (y * y)).
Proof.
  intros Hy.
  apply (derivable_pt_lim_ext (fct_cte 1 / id)%F).
  - intros t. unfold div_fct, fct_cte, id, Rdiv. ring.
  - replace (- / (y * y)) with ((0 * id y - 1 * fct_cte 1 y) / Rsqr (id y))
      by (unfold id, fct_cte, Rsqr; field; exact Hy).
    apply derivable_pt_lim_div.
    + apply derivable_pt_lim_const.
    + apply derivable_pt_lim_id.
    + exact Hy.
Qed.

Lemma differentiable_at_div (f1 f2 : Vector3d -> R) (p g1 g2 : Vector3d) :
  f2 p <> 0 ->
  differentiable_at f1 p g1 -> differentiable_at f2 p g2 ->
  differentiable_at (fun q => f1 q / f2 q) p
    (mkVector3d (f1 p * (- / (f2 p * f2 p) * x3 g2) + / f2 p * x3 g1)
                (f1 p * (- / (f2 p * f2 p) * y3 g2) + / f2 p * y3 g1)
                (f1 p * (- / (f2 p * f2 p) * z3 g2) + / f2 p * z3 g1)).
Proof.
  intros Hne H1 H2.
  apply (differentiable_at_mult f1 (fun q => / f2 q) p g1
           (mkVector3d (- / (f2 p * f2 p) * x3 g2) (- / (f2 p * f2 p) * y3 g2)
                       (- / (f2 p * f2 p) * z3 g2))).
  - exact H1.
  - apply (differentiable_at_comp Rinv f2 p g2).
    + apply derivable_pt_lim_Rinv. exact Hne.
    + exact H2.
Qed.

(** The rules again, with the gradient left to be computed afterwards. *)
Lemma diff_plus (f1 f2 : Vector3d -> R) (p g1 g2 g : Vector3d) :
  differentiable_at f1 p g1 -> differentiable_at f2 p g2 ->
  g = mkVector3d (x3 g1 + x3 g2) (y3 g1 + y3 g2) (z3 g1 + z3 g2) ->
  differentiable_at (fun q => f1 q + f2 q) p g.
Proof. intros H1 H2 ->. apply differentiable_at_plus; assumption. Qed.

Lemma diff_mult (f1 f2 : Vector3d -> R) (p g1 g2 g : Vector3d) :
  differentiable_at f1 p g1 -> differentiable_at f2 p g2 ->
  g = mkVector3d (f1 p * x3 g2 + f2 p * x3 g1) (f1 p * y3 g2 + f2 p * y3 g1)
                 (f1 p * z3 g2 + f2 p * z3 g1) ->
  differentiable_at (fun q => f1 q * f2 q) p g.
Proof. intros H1 H2 ->. apply differentiable_at_mult; assumption. Qed.

Lemma diff_scal (c : R) (f : Vector3d -> R) (p g1 g : Vector3d) :
  differentiable_at f p g1 ->
  g = mkVector3d (c * x3 g1) (c * y3 g1) (c * z3 g1) ->
  differentiable_at (fun q => c * f q) p g.
Proof. intros H1 ->. apply differentiable_at_scal; assumption. Qed.

Lemma diff_div (f1 f2 : Vector3d -> R) (p g1 g2 g : Vector3d) :
  f2 p <> 0 ->
  differentiable_at f1 p g1 -> differentiable_at f2 p g2 ->
  g = mkVector3d (f1 p * (- / (f2 p * f2 p) * x3 g2) + / f2 p * x3 g1)
                 (f1 p * (- / (f2 p * f2 p) * y3 g2) + / f2 p * y3 g1)
                 (f1 p * (- / (f2 p * f2 p) * z3 g2) + / f2 p * z3 g1) ->
  differentiable_at (fun q => f1 q / f2 q) p g.
Proof. intros Hne H1 H2 ->. apply differentiable_at_div; assumption. Qed.

Lemma diff_comp (phi : R -> R) (f : Vector3d -> R) (p g1 g : Vector3d)
    (l : R) :
  derivable_pt_lim phi (f p) l -> differentiable_at f p g1 ->
  g = mkVector3d (l * x3 g1) (l * y3 g1) (l * z3 g1) ->
  differentiable_at (fun q => phi (f q)) p g.
Proof. intros Hphi H1 ->. apply differentiable_at_comp; assumption. Qed.

(** A differentiable function has a derivative along every unit
    direction [d], and it is [g . d]. *)
Lemma differentiable_at_along (f : Vector3d -> R) (p g d : Vector3d) :
  norm3 d = 1 ->
  differentiable_at f p g ->
  derivable_pt_lim (fun t => f (add3 p (scale3 t d))) 0 (dot3 g d).
Proof.
  intros Hd Hf eps Heps.
  destruct (Hf (eps / 2)) as (delta & Hdelta & Hh); [lra |].
  exists (mkposreal delta Hdelta). intros h Hne Hlt. simpl in Hlt.
  assert (Hnorm : norm3 (scale3 h d) = Rabs h).
  { unfold norm3 in *.
    replace (squaredNorm3 (scale3 h d)) with (Rsqr h * squaredNorm3 d)
      by (destruct d; unfold squaredNorm3, scale3, Rsqr; simpl; ring).
    rewrite sqrt_mult; [| apply Rle_0_sqr | apply squaredNorm3_nonneg].
    rewrite Hd, sqrt_Rsqr_abs. ring. }
  specialize (Hh (scale3 h d)). rewrite Hnorm in Hh. specialize (Hh Hlt).
  replace (add3 p (scale3 0 d)) with p
    by (destruct p, d; unfold add3, scale3; simpl; f_equal; ring).
  rewrite Rplus_0_l.
  replace ((f (add3 p (scale3 h d)) - f p) / h - dot3 g d)
    with ((f (add3 p (scale3 h d)) - f p - dot3 g (scale3 h d)) / h)
    by (destruct g, d; unfold dot3, scale3; simpl; field; exact Hne).
  unfold Rdiv. rewrite Rabs_mult, Rabs_inv.
  assert (Hpos : 0 < Rabs h) by (apply Rabs_pos_lt; exact Hne).
  apply (Rmult_lt_reg_r (Rabs h)); [exact Hpos |].
  rewrite Rmult_assoc, Rinv_l, Rmult_1_r by lra.
  nra.
Qed.

(** In particular it has its partial derivatives, and they are the
    coordinates of the gradient. *)
Lemma differentiable_at_partials (f : Vector3d -> R) (p g : Vector3d) :
  differentiable_at f p g ->
  partial_x f p (x3 g) /\ partial_y f p (y3 g) /\ partial_z f p (z3 g).
Proof.
  intros Hf.
  assert (Hunit : forall d, squaredNorm3 d = 1 -> norm3 d = 1).
  { intros d E. unfold norm3. rewrite E. apply sqrt_1. }
  assert (Hshift : forall (phi : R -> R) (a l : R),
             derivable_pt_lim (fun t => phi (a + t)) 0 l ->
             derivable_pt_lim phi a l).
  { intros phi a l H eps Heps. destruct (H eps Heps) as (delta & Hk).
    exists delta. intros h Hne Hlt. specialize (Hk h Hne Hlt).
    rewrite Rplus_0_l, Rplus_0_r in Hk. exact Hk. }
  unfold partial_x, partial_y, partial_z. repeat split.
  - apply Hshift.
    apply (derivable_pt_lim_ext
             (fun t => f (add3 p (scale3 t (mkVector3d 1 0 0))))).
    + intros t. f_equal. destruct p. unfold add3, scale3. simpl.
      f_equal; ring.
    + replace (x3 g) with (dot3 g (mkVector3d 1 0 0))
        by (unfold dot3; simpl; ring).
      apply differentiable_at_along; [| exact Hf].
      apply Hunit. unfold squaredNorm3. simpl. ring.
  - apply Hshift.
    apply (derivable_pt_lim_ext
             (fun t => f (add3 p (scale3 t (mkVector3d 0 1 0))))).
    + intros t. f_equal. destruct p. unfold add3, scale3. simpl.
      f_equal; ring.
    + replace (y3 g) with (dot3 g (mkVector3d 0 1 0))
        by (unfold dot3; simpl; ring).
      apply differentiable_at_along; [| exact Hf].
      apply Hunit. unfold squaredNorm3. simpl. ring.
  - apply Hshift.
    apply (derivable_pt_lim_ext
             (fun t => f (add3 p (scale3 t (mkVector3d 0 0 1))))).
    + intros t. f_equal. destruct p. unfold add3, scale3. simpl.
      f_equal; ring.
    + replace (z3 g) with (dot3 g (mkVector3d 0 0 1))
        by (unfold dot3; simpl; ring).
      apply differentiable_at_along; [| exact Hf].
      apply Hunit. unfold squaredNorm3. simpl. ring.
Qed.

(** *** Projection: the Jacobian *)

Section Jacobian.
Variable cam : OCam.
Variable p : Vector3d.
Hypothesis off_axis : 0 < xy_norm p.

Lemma xy_norm2_as_square : xy_norm2 p = xy_norm p * xy_norm p.
Proof. rewrite <- xy_norm_sqr. ring. Qed.

Lemma xyz_norm_sqr_as_sum :
  xyz_norm_sqr p = xy_norm p * xy_norm p + pr_z p * pr_z p.
Proof. unfold xyz_norm_sqr. rewrite xy_norm2_as_square. ring. Qed.

Lemma diff_xy_norm2 :
  differentiable_at xy_norm2 p (mkVector3d (2 * x3 p) (2 * y3 p) 0).
Proof.
  apply (differentiable_at_ext (fun q => x3 q * x3 q + y3 q * y3 q)).
  { intros q. unfold xy_norm2, pr_x, pr_y. ring. }
  eapply (diff_plus (fun q => x3 q * x3 q) (fun q => y3 q * y3 q)).
  - eapply (diff_mult x3 x3);
      [apply differentiable_at_x | apply differentiable_at_x | reflexivity].
  - eapply (diff_mult y3 y3);
      [apply differentiable_at_y | apply differentiable_at_y | reflexivity].
  - simpl. f_equal; ring.
Qed.

Lemma diff_xy_norm :
  differentiable_at xy_norm p
    (mkVector3d (x3 p / xy_norm p) (y3 p / xy_norm p) 0).
Proof.
  assert (Hpos : 0 < xy_norm2 p) by (rewrite xy_norm2_as_square; nra).
  set (n := xy_norm p) in *.
  eapply (diff_comp sqrt xy_norm2).
  - apply derivable_pt_lim_sqrt. exact Hpos.
  - exact diff_xy_norm2.
  - simpl. change (sqrt (xy_norm2 p)) with n.
    f_equal; field; lra.
Qed.

Lemma diff_pr_z : differentiable_at pr_z p (mkVector3d 0 0 (-1)).
Proof.
  apply (differentiable_at_ext (fun q => -1 * z3 q)).
  { intros q. unfold pr_z. ring. }
  eapply diff_scal; [apply differentiable_at_z |].
  simpl. f_equal; ring.
Qed.

Lemma diff_theta :
  differentiable_at theta p
    (mkVector3d (dtheta_dx p) (dtheta_dy p) (- dtheta_dz p)).
Proof.
  set (n := xy_norm p) in *.
  assert (Hs : 0 < n * n + pr_z p * pr_z p) by nra.
  eapply (diff_comp atan (fun q => pr_z q / xy_norm q)).
  - apply derivable_pt_lim_atan.
  - eapply (diff_div pr_z xy_norm).
    + fold n. lra.
    + exact diff_pr_z.
    + exact diff_xy_norm.
    + reflexivity.
  - unfold dtheta_dx, dtheta_dy, dtheta_dz, z_by_xy_norm.
    rewrite xyz_norm_sqr_as_sum. fold n. unfold pr_x, pr_y. simpl.
    f_equal; field; repeat split; try lra.
    all: nra.
Qed.

Lemma drho_dtheta_sum :
  drho_dtheta cam p =
  sum_f_R0 (fun k => INR (S k) * coeff (inverse_polynomial_ cam) (S k)
                     * theta p ^ k) 10.
Proof.
  unfold drho_dtheta.
  cbv [kInversePolynomialOrder Nat.sub seq fold_left sum_f_R0].
  rewrite !theta_powers_spec by (unfold kInversePolynomialOrder; lia).
  ring.
Qed.

Lemma diff_rho :
  differentiable_at (rho cam) p
    (mkVector3d (drho_dx cam p) (drho_dy cam p) (- drho_dz cam p)).
Proof.
  apply (differentiable_at_ext
           (fun q => sum_f_R0
                       (fun i => coeff (inverse_polynomial_ cam) i
                                 * theta q ^ i) 11)).
  { intros q. symmetry. apply rho_polynomial. }
  eapply (diff_comp
            (fun t => sum_f_R0
                        (fun k => coeff (inverse_polynomial_ cam) k * t ^ k)
                        11) theta).
  - apply (derivable_pt_lim_finite_sum
             (coeff (inverse_polynomial_ cam)) (theta p) 11).
  - exact diff_theta.
  - unfold drho_dx, drho_dy, drho_dz. rewrite drho_dtheta_sum.
    cbn [x3 y3 z3 pred]. f_equal; ring.
Qed.

Lemma diff_raw_u :
  differentiable_at (fun q => x2 (raw_uv cam q)) p
    (mkVector3d (duraw_dx cam p) (duraw_dy cam p) (- duraw_dz cam p)).
Proof.
  set (n := xy_norm p) in *.
  assert (Hs : 0 < n * n + pr_z p * pr_z p) by nra.
  eapply (diff_mult (fun q => pr_x q / xy_norm q) (rho cam)).
  - eapply (diff_div pr_x xy_norm).
    + fold n. lra.
    + apply differentiable_at_x.
    + exact diff_xy_norm.
    + reflexivity.
  - exact diff_rho.
  - unfold duraw_dx, duraw_dy, duraw_dz, xy_sqr, drho_dx, drho_dy, drho_dz.
    unfold dtheta_dx, dtheta_dy, dtheta_dz, z_by_xy_norm.
    rewrite xyz_norm_sqr_as_sum, xy_norm2_as_square. fold n.
    generalize (rho cam p) (drho_dtheta cam p). intros r dr.
    unfold pr_x, pr_y. cbn [x3 y3 z3].
    f_equal; field; repeat split; try lra.
    all: nra.
Qed.

Lemma diff_raw_v :
  differentiable_at (fun q => y2 (raw_uv cam q)) p
    (mkVector3d (dvraw_dx cam p) (dvraw_dy cam p) (- dvraw_dz cam p)).
Proof.
  set (n := xy_norm p) in *.
  assert (Hs : 0 < n * n + pr_z p * pr_z p) by nra.
  eapply (diff_mult (fun q => pr_y q / xy_norm q) (rho cam)).
  - eapply (diff_div pr_y xy_norm).
    + fold n. lra.
    + apply differentiable_at_y.
    + exact diff_xy_norm.
    + reflexivity.
  - exact diff_rho.
  - unfold dvraw_dx, dvraw_dy, dvraw_dz, xy_sqr, drho_dx, drho_dy, drho_dz.
    unfold dtheta_dx, dtheta_dy, dtheta_dz, z_by_xy_norm.
    rewrite xyz_norm_sqr_as_sum, xy_norm2_as_square. fold n.
    generalize (rho cam p) (drho_dtheta cam p). intros r dr.
    unfold pr_x, pr_y. cbn [x3 y3 z3].
    f_equal; field; repeat split; try lra.
    all: nra.
Qed.

Lemma diff_keypoint_x :
  differentiable_at (fun q => x2 (out_keypoint cam q)) p
    (row0 (out_jacobian_point cam p)).
Proof.
  eapply (diff_plus
            (fun q => m00 (affine_correction_ cam) * x2 (raw_uv cam q)
                      + m01 (affine_correction_ cam) * y2 (raw_uv cam q))
            (fun _ => x2 (principal_point_ cam))).
  - eapply (diff_plus
              (fun q => m00 (affine_correction_ cam) * x2 (raw_uv cam q))
              (fun q => m01 (affine_correction_ cam) * y2 (raw_uv cam q))).
    + eapply diff_scal; [exact diff_raw_u | reflexivity].
    + eapply diff_scal; [exact diff_raw_v | reflexivity].
    + reflexivity.
  - apply differentiable_at_const.
  - unfold row0, out_jacobian_point, mul_m23, comma23. cbn.
    f_equal; ring.
Qed.

Lemma diff_keypoint_y :
  differentiable_at (fun q => y2 (out_keypoint cam q)) p
    (row1 (out_jacobian_point cam p)).
Proof.
  eapply (diff_plus
            (fun q => m10 (affine_correction_ cam) * x2 (raw_uv cam q)
                      + m11 (affine_correction_ cam) * y2 (raw_uv cam q))
            (fun _ => y2 (principal_point_ cam))).
  - eapply (diff_plus
              (fun q => m10 (affine_correction_ cam) * x2 (raw_uv cam q))
              (fun q => m11 (affine_correction_ cam) * y2 (raw_uv cam q))).
    + eapply diff_scal; [exact diff_raw_u | reflexivity].
    + eapply diff_scal; [exact diff_raw_v | reflexivity].
    + reflexivity.
  - apply differentiable_at_const.
  - unfold row1, out_jacobian_point, mul_m23, comma23. cbn.
    f_equal; ring.
Qed.
End Jacobian.

(** C3. At a point off the optical axis, the matrix that [project3] gives
    when the Jacobian is asked for is the derivative of the map from the
    point to the keypoint: each of its rows is the gradient of one
    coordinate of the keypoint, and each of its entries is the partial
    derivative of that coordinate with respect to x, y or z. *)
Theorem project3_jacobian (cam : OCam) (p : Vector3d) :
  0 < xy_norm p ->
  exists J : Matrix23,
    snd (project3 cam p true) = Some J /\
    let u := fun q => x2 (fst (project3 cam q true)) in
    let v := fun q => y2 (fst (project3 cam q true)) in
    differentiable_at u p (row0 J) /\ differentiable_at v p (row1 J) /\
    partial_x u p (j00 J) /\ partial_y u p (j01 J) /\ partial_z u p (j02 J) /\
    partial_x v p (j10 J) /\ partial_y v p (j11 J) /\ partial_z v p (j12 J).
Proof.
  intros Hn. exists (out_jacobian_point cam p). split; [reflexivity |].
  intros u v.
  pose proof (diff_keypoint_x cam p Hn) as Hu.
  pose proof (diff_keypoint_y cam p Hn) as Hv.
  change (differentiable_at u p (row0 (out_jacobian_point cam p))) in Hu.
  change (differentiable_at v p (row1 (out_jacobian_point cam p))) in Hv.
  destruct (differentiable_at_partials u p _ Hu) as (Hux & Huy & Huz).
  destruct (differentiable_at_partials v p _ Hv) as (Hvx & Hvy & Hvz).
  repeat split; assumption.
Qed.

Lemma project3_jacobian_witness :
  let p := mkVector3d 2 0 (-1) in
  0 < xy_norm p /\
  exists J : Matrix23,
    snd (project3 scenario_camera p true) = Some J /\
    let u := fun q => x2 (fst (project3 scenario_camera q true)) in
    let v := fun q => y2 (fst (project3 scenario_camera q true)) in
    differentiable_at u p (row0 J) /\ differentiable_at v p (row1 J) /\
    partial_x u p (j00 J) /\ partial_y u p (j01 J) /\ partial_z u p (j02 J) /\
    partial_x v p (j10 J) /\ partial_y v p (j11 J) /\ partial_z v p (j12 J).
Proof.
  intros p.
  assert (H : 0 < xy_norm p) by (unfold p; rewrite xy_norm_2_0; lra).
  split; [exact H |].
  exact (project3_jacobian scenario_camera p H).
Defined.

(** *** Round trip *)

(** C6, amended. For a camera built from a distortion triple with
    1 * d0 - d2 * d1 <> 0 and a point off the optical axis at which the
    two polynomials agree (rho = inversePolynomial(theta) > 0 and
    polynomial(rho) = rho * tan(theta)), the back projection of the
    projected keypoint is p / ||p||: a unit vector that points the same
    way as p. *)
Theorem round_trip (image_size : Vector2i) (polynomial : VectorXd)
    (principal_point : Vector2d) (inverse_polynomial : VectorXd)
    (d0 d1 d2 : R) (p : Vector3d) (want_jacobian : bool) :
  let cam := newOCam image_size polynomial principal_point (mkVector3d d0 d1 d2)
                     inverse_polynomial in
  let back := backProject3 cam (fst (project3 cam p want_jacobian)) in
  1 * d0 - d2 * d1 <> 0 ->
  0 < xy_norm p ->
  0 < rho cam p ->
  polynomial_at cam (rho cam p) = rho cam p * tan (theta p) ->
  back = div3 p (norm3 p) /\ norm3 back = 1 /\ same_direction back p.
Proof.
  intros cam back Hd Hn Hr Hpoly.
  pose proof (xy_norm_pos_nonzero p Hn) as Hp.
  assert (Hrect : bp_rectified cam (out_keypoint cam p) = raw_uv cam p).
  { unfold bp_rectified, out_keypoint.
    apply rectified_of_projection. unfold determinant. cbn. lra. }
  assert (Hrho : bp_rho cam (out_keypoint cam p) = rho cam p).
  { unfold bp_rho, norm2, squaredNorm2. rewrite Hrect. unfold raw_uv. simpl.
    pose proof (xy_norm_sqr p) as Hsq. unfold xy_norm2 in Hsq.
    replace (pr_x p / xy_norm p * rho cam p * (pr_x p / xy_norm p * rho cam p)
             + pr_y p / xy_norm p * rho cam p
               * (pr_y p / xy_norm p * rho cam p))
      with (rho cam p * rho cam p).
    - apply sqrt_square. lra.
    - transitivity (rho cam p * rho cam p * (pr_x p ^ 2 + pr_y p ^ 2)
                    / (xy_norm p ^ 2)).
      + rewrite <- Hsq. field. lra.
      + field. lra. }
  assert (Hraw : bp_raw cam (out_keypoint cam p)
                 = scale3 (rho cam p / xy_norm p) p).
  { unfold bp_raw. rewrite bp_z_polynomial, Hrho, Hpoly, Hrect.
    unfold theta. rewrite tan_atan. unfold z_by_xy_norm, raw_uv, scale3.
    destruct p as [x y z]. unfold pr_x, pr_y, pr_z. simpl.
    f_equal; field; lra. }
  assert (Hback : back = div3 p (norm3 p)).
  { unfold back, project3, backProject3. simpl fst. rewrite Hraw.
    apply normalize_scale; [apply Rdiv_lt_0_compat; assumption | exact Hp]. }
  rewrite Hback. repeat split.
  - apply norm3_div3. exact Hp.
  - apply same_direction_unit. exact Hp.
Qed.

Lemma round_trip_witness :
  let cam := newOCam (mkVector2i 640 480) [1; 0; 0; 0; 0] (mkVector2d 320 240)
                     (mkVector3d 1 0 0) [1; 0; 0; 0; 0; 0; 0; 0; 0; 0; 0; 0] in
  let p := mkVector3d 2 0 (-2) in
  let back := backProject3 cam (fst (project3 cam p false)) in
  (1 * 1 - 0 * 0 <> 0 /\ 0 < xy_norm p /\ 0 < rho cam p /\
   polynomial_at cam (rho cam p) = rho cam p * tan (theta p)) /\
  back = div3 p (norm3 p) /\ norm3 back = 1 /\ same_direction back p.
Proof.
  intros cam p back.
  assert (Hd : 1 * 1 - 0 * 0 <> 0) by lra.
  assert (En : xy_norm p = 2) by apply xy_norm_2_0.
  assert (Hn : 0 < xy_norm p) by lra.
  assert (Er : rho cam p = 1).
  { rewrite rho_polynomial. unfold cam, coeff. simpl. ring. }
  assert (Hr : 0 < rho cam p) by (rewrite Er; lra).
  assert (Hpoly : polynomial_at cam (rho cam p) = rho cam p * tan (theta p)).
  { rewrite Er. unfold theta, z_by_xy_norm. rewrite tan_atan, En.
    unfold polynomial_at, cam, coeff, p, pr_z. simpl. field. }
  split; [repeat split; assumption |].
  exact (round_trip (mkVector2i 640 480) [1; 0; 0; 0; 0] (mkVector2d 320 240)
           [1; 0; 0; 0; 0; 0; 0; 0; 0; 0; 0; 0] 1 0 0 p false
           Hd Hn Hr Hpoly).
Defined.

Lemma theta_sign (p : Vector3d) :
  0 < xy_norm p -> 0 < theta p -> z3 p < 0.
Proof.
  intros Hn Ht. destruct (Rlt_or_le (z3 p) 0) as [H | H]; [exact H |].
  exfalso. unfold theta, z_by_xy_norm, pr_z in Ht.
  assert (Hw : - z3 p / xy_norm p <= 0).
  { unfold Rdiv. pose proof (Rinv_0_lt_compat _ Hn). nra. }
  destruct Hw as [Hw | Hw].
  - apply atan_increasing in Hw. rewrite atan_0 in Hw. lra.
  - rewrite Hw, atan_0 in Ht. lra.
Qed.

Lemma theta_sqr_small (p : Vector3d) : theta p * theta p < 4.
Proof.
  unfold theta. pose proof (atan_bound (z_by_xy_norm p)) as [Hlo Hhi].
  pose proof PI_4. nra.
Qed.

(** The scenario camera sends a point off the axis to a keypoint whose
    back projection, before the normalization, is
    (x / xyNorm * theta, y / xyNorm * theta, 100 - theta^2 / 1000). *)
Lemma scenario_round_trip_raw (p : Vector3d) :
  0 < xy_norm p ->
  bp_raw scenario_camera (fst (project3 scenario_camera p false)) =
  mkVector3d (x3 p / xy_norm p * theta p) (y3 p / xy_norm p * theta p)
             (100 - 0.001 * (theta p * theta p)).
Proof.
  intros Hn. unfold project3. simpl fst.
  assert (Hr : rho scenario_camera p = theta p).
  { rewrite rho_polynomial. unfold scenario_camera, coeff. simpl. ring. }
  assert (Hrect : bp_rectified scenario_camera (out_keypoint scenario_camera p)
                  = raw_uv scenario_camera p).
  { unfold bp_rectified, out_keypoint.
    apply rectified_of_projection. unfold determinant. cbn. lra. }
  assert (Hsq : bp_rho scenario_camera (out_keypoint scenario_camera p)
                * bp_rho scenario_camera (out_keypoint scenario_camera p)
                = theta p * theta p).
  { unfold bp_rho, norm2. rewrite sqrt_sqrt.
    - rewrite Hrect. unfold squaredNorm2, raw_uv. rewrite Hr. simpl.
      pose proof (xy_norm_sqr p) as Hs. unfold xy_norm2 in Hs.
      transitivity (theta p * theta p * (pr_x p ^ 2 + pr_y p ^ 2)
                    / (xy_norm p ^ 2)).
      + field. lra.
      + rewrite <- Hs. field. lra.
    - unfold squaredNorm2. nra. }
  unfold bp_raw. rewrite Hrect. unfold raw_uv. rewrite Hr. simpl. f_equal.
  unfold bp_z. cbv zeta. rewrite <- Hsq.
  unfold scenario_camera, coeff. simpl. ring.
Qed.

(** With the scenario camera no point off the axis comes back in its own
    direction: the returned z is positive, so z would be positive, and
    then x and y are returned with the other sign. *)
Lemma scenario_never_round_trips (p : Vector3d) :
  0 < xy_norm p ->
  ~ same_direction
      (backProject3 scenario_camera (fst (project3 scenario_camera p false))) p.
Proof.
  intros Hn (k & Hk & E). unfold backProject3 in E.
  rewrite (scenario_round_trip_raw p Hn) in E.
  set (v := mkVector3d _ _ _) in E.
  pose proof (theta_sqr_small p) as Hsmall.
  assert (Hv : v <> mkVector3d 0 0 0).
  { intros E0. apply (f_equal z3) in E0. simpl in E0. lra. }
  assert (HN : 0 < norm3 v).
  { apply sqrt_lt_R0. apply squaredNorm3_pos. exact Hv. }
  rewrite normalize_nonzero in E by exact Hv.
  pose proof (f_equal x3 E) as Ex. pose proof (f_equal y3 E) as Ey.
  pose proof (f_equal z3 E) as Ez. simpl in Ex, Ey, Ez.
  set (N := norm3 v) in *. set (n := xy_norm p) in *. set (t := theta p) in *.
  assert (Hz : 0 < z3 p).
  { assert (0 < (100 - 0.001 * (t * t)) / N)
      by (apply Rdiv_lt_0_compat; lra).
    nra. }
  assert (Ht : t <= 0).
  { destruct (Rle_or_lt t 0) as [H | H]; [exact H |].
    pose proof (theta_sign p Hn H). lra. }
  assert (Hscale : 0 <= - t / (n * N)).
  { unfold Rdiv. assert (0 < / (n * N))
      by (apply Rinv_0_lt_compat; apply Rmult_lt_0_compat; assumption).
    nra. }
  assert (Hx : x3 p * (k + - t / (n * N)) = 0).
  { transitivity (k * x3 p - x3 p / n * t / N); [field; lra |].
    rewrite Ex. ring. }
  assert (Hy : y3 p * (k + - t / (n * N)) = 0).
  { transitivity (k * y3 p - y3 p / n * t / N); [field; lra |].
    rewrite Ey. ring. }
  assert (Hxy : x3 p * x3 p + y3 p * y3 p = n * n).
  { pose proof (xy_norm_sqr p) as Hs. unfold xy_norm2, pr_x, pr_y in Hs.
    fold n in Hs. lra. }
  assert (Hk0 : 0 < k + - t / (n * N)) by lra.
  apply Rmult_integral in Hx. apply Rmult_integral in Hy.
  destruct Hx as [Hx | Hx]; [| lra]. destruct Hy as [Hy | Hy]; [| lra].
  rewrite Hx, Hy in Hxy. nra.
Qed.

(** C6 as stated fails.  With the camera of the loader scenario neither
    the point (2, 0, 2) nor the point (2, 0, -2), both off the optical
    axis, comes back in its own direction. *)
Lemma round_trip_counterexample :
  let p := mkVector3d 2 0 2 in
  let q := mkVector3d 2 0 (-2) in
  0 < xy_norm p /\ 0 < xy_norm q /\
  ~ same_direction
      (backProject3 scenario_camera (fst (project3 scenario_camera p false))) p
  /\
  ~ same_direction
      (backProject3 scenario_camera (fst (project3 scenario_camera q false))) q.
Proof.
  intros p q.
  assert (Hp : 0 < xy_norm p) by (unfold p; rewrite xy_norm_2_0; lra).
  assert (Hq : 0 < xy_norm q) by (unfold q; rewrite xy_norm_2_0; lra).
  repeat split; try assumption.
  - apply scenario_never_round_trips. exact Hp.
  - apply scenario_never_round_trips. exact Hq.
Qed.

(** *** Loading *)

Lemma read_scenario_file :
  read_parameters (open scenario_file) =
  (mkIStream ["010"%char] false false, scenario_locals, None).
Proof. vm_compute. reflexivity. Qed.

Lemma read_scenario_file_cut :
  read_parameters (open scenario_file_cut) =
  (mkIStream [] true false, scenario_locals,
   Some "Reading inverse polynomial fails."%string).
Proof. vm_compute. reflexivity. Qed.

Lemma scenario_doubles :
  doubles (l_polynomial scenario_locals) = [-100; 0; 0.001; 0; 0] /\
  doubles (l_principal_point scenario_locals) = [320; 240] /\
  doubles (l_distortion scenario_locals) = [1; 0; 0] /\
  doubles (l_inverse_polynomial scenario_locals) =
  [0; 1; 0; 0; 0; 0; 0; 0; 0; 0; 0; 0].
Proof.
  unfold doubles, scenario_locals, Q2R; cbn.
  repeat split; repeat (f_equal; try field).
Qed.

(** C9. Loading the scenario file gives a camera whose intrinsic
    parameters are [-100, 0, 0.001, 0, 0, 320, 240] and whose distortion
    parameters are [1, 0, 0, 1]. *)
Theorem load_scenario (files : filesystem) (parameter_file : string) :
  files parameter_file = Some scenario_file ->
  exists cam : OCam,
    loadOCam files parameter_file = Loaded cam /\
    getIntrinsicParameters cam = [-100; 0; 0.001; 0; 0; 320; 240] /\
    getDistortionParameters cam = [1; 0; 0; 1].
Proof.
  intros Hfile. unfold loadOCam. rewrite Hfile, read_scenario_file.
  destruct scenario_doubles as (Hp & Hpp & Hd & Hi).
  rewrite Hp, Hpp, Hd, Hi.
  eexists. split; [reflexivity |]. split; reflexivity.
Qed.

Lemma load_scenario_witness :
  single_file "ocam.txt" scenario_file "ocam.txt"%string = Some scenario_file /\
  exists cam : OCam,
    loadOCam (single_file "ocam.txt" scenario_file) "ocam.txt" = Loaded cam /\
    getIntrinsicParameters cam = [-100; 0; 0.001; 0; 0; 320; 240] /\
    getDistortionParameters cam = [1; 0; 0; 1].
Proof.
  split; [reflexivity |].
  apply (load_scenario (single_file "ocam.txt" scenario_file) "ocam.txt").
  reflexivity.
Defined.

Lemma loadOCam_fatal (files : filesystem) (parameter_file content : string)
    (fs : istream) (v : load_locals) (message : string) :
  files parameter_file = Some content ->
  read_parameters (open content) = (fs, v, Some message) ->
  loadOCam files parameter_file = Fatal message.
Proof.
  intros Hfile Hread. unfold loadOCam. rewrite Hfile, Hread. reflexivity.
Qed.

(** C10. The scenario file without its last newline holds the same 24
    numbers; every one of them is read as from the whole file, the last
    extraction runs into the end of the input and sets [eofbit] (not
    [failbit]), the last check fails and no camera is returned. *)
Theorem load_without_final_newline :
  scenario_file = (scenario_file_cut ++ String "010" EmptyString)%string /\
  (exists fs : istream,
     read_parameters (open scenario_file_cut) =
     (fs, snd (fst (read_parameters (open scenario_file))),
      Some "Reading inverse polynomial fails."%string) /\
     buffer fs = [] /\ eofbit fs = true /\ failbit fs = false /\
     good fs = false) /\
  snd (read_parameters (open scenario_file)) = None /\
  loadOCam (single_file "ocam.txt" scenario_file_cut) "ocam.txt" =
  Fatal "Reading inverse polynomial fails.".
Proof.
  split; [reflexivity |]. split; [| split].
  - exists (mkIStream [] true false).
    rewrite read_scenario_file, read_scenario_file_cut. repeat split.
  - rewrite read_scenario_file. reflexivity.
  - apply (loadOCam_fatal _ _ scenario_file_cut (mkIStream [] true false)
                            scenario_locals).
    + reflexivity.
    + exact read_scenario_file_cut.
Qed.

(** ** Further properties of the projection *)

Lemma xy_norm_scale (k : R) (p : Vector3d) :
  0 < k -> xy_norm (scale3 k p) = k * xy_norm p.
Proof.
  intros Hk. unfold xy_norm, xy_norm2, pr_x, pr_y, scale3. simpl.
  replace (k * x3 p * (k * x3 p * 1) + k * y3 p * (k * y3 p * 1))
    with ((k * k) * (x3 p * (x3 p * 1) + y3 p * (y3 p * 1))) by ring.
  rewrite sqrt_mult_alt by nra. rewrite sqrt_square by lra. reflexivity.
Qed.

Lemma theta_scale (k : R) (p : Vector3d) :
  0 < k -> 0 < xy_norm p -> theta (scale3 k p) = theta p.
Proof.
  intros Hk Hn. unfold theta, z_by_xy_norm. rewrite xy_norm_scale by exact Hk.
  f_equal. unfold pr_z, scale3. simpl. field. lra.
Qed.

Lemma rho_scale (cam : OCam) (k : R) (p : Vector3d) :
  0 < k -> 0 < xy_norm p -> rho cam (scale3 k p) = rho cam p.
Proof.
  intros Hk Hn. unfold rho. rewrite theta_scale by assumption. reflexivity.
Qed.

(** X1. The keypoint depends on the direction of the point only: a point
    moved along its ray from the origin has the same keypoint. *)
Theorem project3_scale_invariant (cam : OCam) (k : R) (p : Vector3d)
    (want_jacobian : bool) :
  0 < k -> 0 < xy_norm p ->
  fst (project3 cam (scale3 k p) want_jacobian) =
  fst (project3 cam p want_jacobian).
Proof.
  intros Hk Hn. unfold project3, out_keypoint, raw_uv. simpl fst.
  rewrite rho_scale, xy_norm_scale by assumption.
  unfold pr_x, pr_y, scale3. simpl.
  f_equal. f_equal. f_equal; field; lra.
Qed.

Lemma project3_scale_invariant_witness :
  0 < 3 /\ 0 < xy_norm (mkVector3d 2 0 (-1)) /\
  fst (project3 scenario_camera (scale3 3 (mkVector3d 2 0 (-1))) true) =
  fst (project3 scenario_camera (mkVector3d 2 0 (-1)) true).
Proof.
  assert (Hk : 0 < 3) by lra.
  assert (Hn : 0 < xy_norm (mkVector3d 2 0 (-1)))
    by (rewrite xy_norm_2_0; lra).
  split; [exact Hk |]. split; [exact Hn |].
  exact (project3_scale_invariant scenario_camera 3 _ true Hk Hn).
Defined.

Lemma drho_dtheta_scale (cam : OCam) (k : R) (p : Vector3d) :
  0 < k -> 0 < xy_norm p ->
  drho_dtheta cam (scale3 k p) = drho_dtheta cam p.
Proof.
  intros Hk Hn. unfold drho_dtheta. rewrite theta_scale by assumption.
  reflexivity.
Qed.

(** X2. The Jacobian at a point moved along its ray by the factor [k] is the
    Jacobian at the point divided by [k]. *)
Theorem jacobian_scale (cam : OCam) (k : R) (p : Vector3d) :
  0 < k -> 0 < xy_norm p ->
  let J := out_jacobian_point cam p in
  snd (project3 cam (scale3 k p) true) =
  Some (mkMatrix23 (j00 J / k) (j01 J / k) (j02 J / k)
                   (j10 J / k) (j11 J / k) (j12 J / k)).
Proof.
  intros Hk Hn J. unfold project3. simpl snd. f_equal.
  assert (Hn2 : xy_norm2 p = xy_norm p * xy_norm p).
  { rewrite <- xy_norm_sqr. ring. }
  assert (Hkn2 : xy_norm2 (scale3 k p) = k * k * (xy_norm p * xy_norm p)).
  { rewrite <- Hn2. unfold xy_norm2, pr_x, pr_y, scale3. simpl. ring. }
  unfold J, out_jacobian_point, mul_m23, comma23. cbn.
  unfold duraw_dx, duraw_dy, duraw_dz, dvraw_dx, dvraw_dy, dvraw_dz, xy_sqr.
  unfold drho_dx, drho_dy, drho_dz, dtheta_dx, dtheta_dy, dtheta_dz.
  unfold z_by_xy_norm, xyz_norm_sqr.
  rewrite !rho_scale, !drho_dtheta_scale, !xy_norm_scale by assumption.
  rewrite !Hkn2, !Hn2.
  generalize (rho cam p) (drho_dtheta cam p). intros r dr.
  unfold pr_x, pr_y, pr_z, scale3. cbn [x3 y3 z3].
  set (n := xy_norm p) in *. destruct (affine_correction_ cam) as [a b c d].
  cbn [m00 m01 m10 m11].
  assert (Hs : 0 < n * n + z3 p * z3 p) by nra.
  assert (Hks : 0 < k * k * (n * n) + k * z3 p * (k * z3 p)).
  { replace (k * k * (n * n) + k * z3 p * (k * z3 p))
      with (k * k * (n * n + z3 p * z3 p)) by ring.
    apply Rmult_lt_0_compat; [nra | exact Hs]. }
  f_equal; field; repeat split; try lra.
  all: nra.
Qed.

Lemma jacobian_scale_witness :
  0 < 3 /\ 0 < xy_norm (mkVector3d 2 0 (-1)) /\
  let J := out_jacobian_point scenario_camera (mkVector3d 2 0 (-1)) in
  snd (project3 scenario_camera (scale3 3 (mkVector3d 2 0 (-1))) true) =
  Some (mkMatrix23 (j00 J / 3) (j01 J / 3) (j02 J / 3)
                   (j10 J / 3) (j11 J / 3) (j12 J / 3)).
Proof.
  assert (Hk : 0 < 3) by lra.
  assert (Hn : 0 < xy_norm (mkVector3d 2 0 (-1)))
    by (rewrite xy_norm_2_0; lra).
  split; [exact Hk |]. split; [exact Hn |].
  exact (jacobian_scale scenario_camera 3 _ Hk Hn).
Defined.

(** X3. The Jacobian sends the point itself to zero: to first order, moving
    the point along its ray does not move the keypoint. *)
Theorem jacobian_annihilates_point (cam : OCam) (p : Vector3d) :
  0 < xy_norm p ->
  let J := out_jacobian_point cam p in
  dot3 (row0 J) p = 0 /\ dot3 (row1 J) p = 0.
Proof.
  intros Hn J.
  pose proof (xy_norm_sqr p) as Hsq.
  assert (Hs : 0 < xyz_norm_sqr p) by (apply xyz_norm_sqr_pos; exact Hn).
  assert (Hxy : x3 p * x3 p + y3 p * y3 p = xy_norm p * xy_norm p).
  { unfold xy_norm2, pr_x, pr_y in Hsq. simpl in Hsq. lra. }
  assert (Hu : duraw_dx cam p * x3 p + duraw_dy cam p * y3 p
               + - duraw_dz cam p * z3 p = 0).
  { unfold duraw_dx, duraw_dy, duraw_dz, xy_sqr.
    unfold drho_dx, drho_dy, drho_dz, dtheta_dx, dtheta_dy, dtheta_dz.
    unfold z_by_xy_norm, xyz_norm_sqr in *. rewrite <- Hsq in *.
    generalize (rho cam p) (drho_dtheta cam p). intros r dr.
    unfold pr_x, pr_y, pr_z in *. set (n := xy_norm p) in *.
    simpl in Hs.
    transitivity
      (x3 p * (n * n - (x3 p * x3 p + y3 p * y3 p))
       * (r / (n * n * n)
          + dr * (- z3 p) / (n * n * (n * n + z3 p * z3 p)))).
    - field. split; lra.
    - rewrite Hxy. ring. }
  assert (Hv : dvraw_dx cam p * x3 p + dvraw_dy cam p * y3 p
               + - dvraw_dz cam p * z3 p = 0).
  { unfold dvraw_dx, dvraw_dy, dvraw_dz, xy_sqr.
    unfold drho_dx, drho_dy, drho_dz, dtheta_dx, dtheta_dy, dtheta_dz.
    unfold z_by_xy_norm, xyz_norm_sqr in *. rewrite <- Hsq in *.
    generalize (rho cam p) (drho_dtheta cam p). intros r dr.
    unfold pr_x, pr_y, pr_z in *. set (n := xy_norm p) in *.
    simpl in Hs.
    transitivity
      (y3 p * (n * n - (x3 p * x3 p + y3 p * y3 p))
       * (r / (n * n * n)
          + dr * (- z3 p) / (n * n * (n * n + z3 p * z3 p)))).
    - field. split; lra.
    - rewrite Hxy. ring. }
  unfold J, out_jacobian_point, mul_m23, comma23, row0, row1, dot3. cbn.
  set (U := duraw_dx cam p * x3 p + duraw_dy cam p * y3 p
            + - duraw_dz cam p * z3 p) in Hu.
  set (V := dvraw_dx cam p * x3 p + dvraw_dy cam p * y3 p
            + - dvraw_dz cam p * z3 p) in Hv.
  split.
  - transitivity (m00 (affine_correction_ cam) * U
                  + m01 (affine_correction_ cam) * V).
    + unfold U, V. ring.
    + rewrite Hu, Hv. ring.
  - transitivity (m10 (affine_correction_ cam) * U
                  + m11 (affine_correction_ cam) * V).
    + unfold U, V. ring.
    + rewrite Hu, Hv. ring.
Qed.

Lemma jacobian_annihilates_point_witness :
  let p := mkVector3d 2 0 (-1) in
  0 < xy_norm p /\
  let J := out_jacobian_point scenario_camera p in
  dot3 (row0 J) p = 0 /\ dot3 (row1 J) p = 0.
Proof.
  intros p.
  assert (Hn : 0 < xy_norm p) by (unfold p; rewrite xy_norm_2_0; lra).
  split; [exact Hn |].
  exact (jacobian_annihilates_point scenario_camera p Hn).
Defined.

(** X4. Two points that face each other across the optical axis have
    keypoints that face each other across the principal point. *)
Theorem project3_opposite (cam : OCam) (x y z : R) (want_jacobian : bool) :
  0 < xy_norm (mkVector3d x y z) ->
  let K := fst (project3 cam (mkVector3d x y z) want_jacobian) in
  fst (project3 cam (mkVector3d (- x) (- y) z) want_jacobian) =
  mkVector2d (2 * x2 (principal_point_ cam) - x2 K)
             (2 * y2 (principal_point_ cam) - y2 K).
Proof.
  intros Hn K.
  assert (En : xy_norm (mkVector3d (- x) (- y) z) = xy_norm (mkVector3d x y z)).
  { unfold xy_norm, xy_norm2, pr_x, pr_y. simpl. f_equal. ring. }
  assert (Et : theta (mkVector3d (- x) (- y) z) = theta (mkVector3d x y z)).
  { unfold theta, z_by_xy_norm. rewrite En. reflexivity. }
  assert (Er : rho cam (mkVector3d (- x) (- y) z) = rho cam (mkVector3d x y z)).
  { unfold rho. rewrite Et. reflexivity. }
  unfold K, project3, out_keypoint, raw_uv, add2, mul_mv. simpl.
  rewrite Er, En. unfold pr_x, pr_y. simpl.
  f_equal; field; lra.
Qed.

Lemma project3_opposite_witness :
  0 < xy_norm (mkVector3d 2 0 (-1)) /\
  let K := fst (project3 scenario_camera (mkVector3d 2 0 (-1)) false) in
  fst (project3 scenario_camera (mkVector3d (- 2) (- 0) (-1)) false) =
  mkVector2d (2 * x2 (principal_point_ scenario_camera) - x2 K)
             (2 * y2 (principal_point_ scenario_camera) - y2 K).
Proof.
  assert (Hn : 0 < xy_norm (mkVector3d 2 0 (-1)))
    by (rewrite xy_norm_2_0; lra).
  split; [exact Hn |].
  exact (project3_opposite scenario_camera 2 0 (-1) false Hn).
Defined.

(** ** Further properties of the back projection *)

Lemma normalize_flip_xy (v : Vector3d) :
  normalize (mkVector3d (- x3 v) (- y3 v) (z3 v)) =
  mkVector3d (- x3 (normalize v)) (- y3 (normalize v)) (z3 (normalize v)).
Proof.
  assert (Es : squaredNorm3 (mkVector3d (- x3 v) (- y3 v) (z3 v))
               = squaredNorm3 v) by (unfold squaredNorm3; simpl; ring).
  unfold normalize. rewrite Es.
  destruct (Rlt_dec 0 (squaredNorm3 v)) as [Hpos | _].
  - assert (0 < sqrt (squaredNorm3 v)) by (apply sqrt_lt_R0; exact Hpos).
    unfold div3. simpl. f_equal; field; lra.
  - reflexivity.
Qed.

(** X5. Two keypoints that face each other across the principal point have
    bearing vectors that face each other across the optical axis. *)
Theorem backProject3_opposite (cam : OCam) (keypoint : Vector2d) :
  let B := backProject3 cam keypoint in
  backProject3 cam
    (mkVector2d (2 * x2 (principal_point_ cam) - x2 keypoint)
                (2 * y2 (principal_point_ cam) - y2 keypoint)) =
  mkVector3d (- x3 B) (- y3 B) (z3 B).
Proof.
  intros B. unfold B, backProject3. rewrite <- normalize_flip_xy. f_equal.
  set (k' := mkVector2d _ _).
  assert (Ex : x2 (bp_rectified cam k') = - x2 (bp_rectified cam keypoint)).
  { unfold bp_rectified, mul_mv, sub2, k'. simpl. ring. }
  assert (Ey : y2 (bp_rectified cam k') = - y2 (bp_rectified cam keypoint)).
  { unfold bp_rectified, mul_mv, sub2, k'. simpl. ring. }
  assert (Er : bp_rho cam k' = bp_rho cam keypoint).
  { unfold bp_rho, norm2, squaredNorm2. rewrite Ex, Ey. f_equal. ring. }
  unfold bp_raw. rewrite Ex, Ey. simpl. f_equal.
  unfold bp_z. rewrite Er. reflexivity.
Qed.

Lemma inverse_left (m : Matrix2d) :
  determinant m <> 0 -> mul_mm (inverse m) m = identity2.
Proof.
  intros Hd. destruct m as [a b c d].
  unfold mul_mm, inverse, identity2, determinant in *. simpl in *.
  f_equal; field; exact Hd.
Qed.

Lemma affine_of_rectified (m : Matrix2d) (k pp : Vector2d) :
  determinant m <> 0 ->
  add2 (mul_mv m (mul_mv (inverse m) (sub2 k pp))) pp = k.
Proof.
  intros Hd. destruct m as [a b c d], k as [kx ky], pp as [px py].
  unfold mul_mv, inverse, sub2, add2, determinant in *. simpl in *.
  f_equal; field; exact Hd.
Qed.

(** X6. Whatever the two polynomials are, the back projection undoes the
    affine part of the projection: the rectified keypoint of a projected
    point is its raw pixel offset, and its radius is |rho|. *)
Theorem rectified_of_projected (image_size : Vector2i) (polynomial : VectorXd)
    (principal_point : Vector2d) (inverse_polynomial : VectorXd)
    (d0 d1 d2 : R) (p : Vector3d) (want_jacobian : bool) :
  let cam := newOCam image_size polynomial principal_point
                     (mkVector3d d0 d1 d2) inverse_polynomial in
  let keypoint := fst (project3 cam p want_jacobian) in
  1 * d0 - d2 * d1 <> 0 ->
  0 < xy_norm p ->
  bp_rectified cam keypoint =
    mkVector2d (x3 p / xy_norm p * rho cam p) (y3 p / xy_norm p * rho cam p)
  /\ bp_rho cam keypoint = Rabs (rho cam p).
Proof.
  intros cam keypoint Hd Hn.
  assert (Hrect : bp_rectified cam keypoint = raw_uv cam p).
  { unfold keypoint, project3, bp_rectified, out_keypoint. simpl fst.
    apply rectified_of_projection. unfold determinant. cbn. lra. }
  split; [exact Hrect |].
  unfold bp_rho, norm2, squaredNorm2. rewrite Hrect. unfold raw_uv. simpl.
  rewrite <- sqrt_Rsqr_abs. f_equal. unfold Rsqr.
  pose proof (xy_norm_sqr p) as Hsq. unfold xy_norm2 in Hsq.
  transitivity (rho cam p * rho cam p * (pr_x p ^ 2 + pr_y p ^ 2)
                / (xy_norm p ^ 2)).
  - field. lra.
  - rewrite <- Hsq. field. lra.
Qed.

Lemma rectified_of_projected_witness :
  let cam := newOCam (mkVector2i 640 480) [-100; 0; 0.001; 0; 0]
                     (mkVector2d 320 240) (mkVector3d 2 (1 / 2) 3)
                     [0; 1; 0; 0; 0; 0; 0; 0; 0; 0; 0; 0] in
  let p := mkVector3d 2 0 (-1) in
  let keypoint := fst (project3 cam p true) in
  (1 * 2 - 3 * (1 / 2) <> 0 /\ 0 < xy_norm p) /\
  bp_rectified cam keypoint =
    mkVector2d (x3 p / xy_norm p * rho cam p) (y3 p / xy_norm p * rho cam p)
  /\ bp_rho cam keypoint = Rabs (rho cam p).
Proof.
  intros cam p keypoint.
  assert (Hd : 1 * 2 - 3 * (1 / 2) <> 0) by lra.
  assert (Hn : 0 < xy_norm p) by (unfold p; rewrite xy_norm_2_0; lra).
  split; [split; assumption |].
  exact (rectified_of_projected (mkVector2i 640 480) [-100; 0; 0.001; 0; 0]
           (mkVector2d 320 240) [0; 1; 0; 0; 0; 0; 0; 0; 0; 0; 0; 0]
           2 (1 / 2) 3 p true Hd Hn).
Defined.

(** X7. The principal point is sent onto the optical axis: its bearing vector
    is (0, 0, -1) when the constant coefficient of the polynomial is
    positive and (0, 0, 1) when it is negative. *)
Theorem backProject3_principal_point (image_size : Vector2i)
    (polynomial : VectorXd) (principal_point : Vector2d)
    (inverse_polynomial : VectorXd) (d0 d1 d2 : R) :
  let cam := newOCam image_size polynomial principal_point
                     (mkVector3d d0 d1 d2) inverse_polynomial in
  1 * d0 - d2 * d1 <> 0 ->
  coeff polynomial 0 <> 0 ->
  backProject3 cam principal_point =
  mkVector3d 0 0 (if Rlt_dec 0 (coeff polynomial 0) then -1 else 1).
Proof.
  intros cam Hd Hp0.
  assert (Hrect : bp_rectified cam principal_point = mkVector2d 0 0).
  { unfold bp_rectified, cam, newOCam, mul_mv, sub2. simpl.
    f_equal; ring. }
  assert (Hrho : bp_rho cam principal_point = 0).
  { unfold bp_rho, norm2, squaredNorm2. rewrite Hrect. simpl.
    replace (0 * 0 + 0 * 0) with 0 by ring. apply sqrt_0. }
  assert (Hraw : bp_raw cam principal_point
                 = mkVector3d 0 0 (- coeff polynomial 0)).
  { unfold bp_raw. rewrite Hrect. simpl. f_equal.
    unfold bp_z. cbv zeta. rewrite Hrho. unfold cam, newOCam. simpl. ring. }
  unfold backProject3. rewrite Hraw.
  set (c := coeff polynomial 0) in *.
  assert (Hv : mkVector3d 0 0 (- c) <> mkVector3d 0 0 0).
  { intros E. apply (f_equal z3) in E. simpl in E. lra. }
  rewrite normalize_nonzero by exact Hv.
  assert (Hnorm : norm3 (mkVector3d 0 0 (- c)) = Rabs c).
  { unfold norm3, squaredNorm3. simpl.
    replace (0 * 0 + 0 * 0 + - c * - c) with (Rsqr c) by (unfold Rsqr; ring).
    apply sqrt_Rsqr_abs. }
  rewrite Hnorm. unfold div3. simpl.
  destruct (Rlt_dec 0 c) as [Hpos | Hneg].
  - rewrite Rabs_right by lra. f_equal; field; lra.
  - rewrite Rabs_left by lra. f_equal; field; lra.
Qed.

Lemma backProject3_principal_point_witness :
  (1 * 1 - 0 * 0 <> 0 /\ coeff [-100; 0; 0.001; 0; 0] 0 <> 0) /\
  backProject3 scenario_camera (mkVector2d 320 240) =
  mkVector3d 0 0 (if Rlt_dec 0 (coeff [-100; 0; 0.001; 0; 0] 0) then -1 else 1).
Proof.
  assert (Hd : 1 * 1 - 0 * 0 <> 0) by lra.
  assert (Hp : coeff [-100; 0; 0.001; 0; 0] 0 <> 0)
    by (unfold coeff; simpl; lra).
  split; [split; assumption |].
  exact (backProject3_principal_point (mkVector2i 640 480)
           [-100; 0; 0.001; 0; 0] (mkVector2d 320 240)
           [0; 1; 0; 0; 0; 0; 0; 0; 0; 0; 0; 0] 1 0 0 Hd Hp).
Defined.

(** ** From a keypoint to its bearing vector and back *)

(** X8. Where the inverse polynomial undoes the polynomial, that is where it
    gives the radius rho back at the angle theta = atan(polynomial(rho) /
    rho), the projection of the bearing vector of a keypoint is the
    keypoint. *)
Theorem keypoint_round_trip (image_size : Vector2i) (polynomial : VectorXd)
    (principal_point : Vector2d) (inverse_polynomial : VectorXd)
    (d0 d1 d2 : R) (keypoint : Vector2d) (want_jacobian : bool) :
  let cam := newOCam image_size polynomial principal_point
                     (mkVector3d d0 d1 d2) inverse_polynomial in
  let r := bp_rho cam keypoint in
  let th := atan (polynomial_at cam r / r) in
  1 * d0 - d2 * d1 <> 0 ->
  0 < r ->
  sum_f_R0 (fun i => coeff inverse_polynomial i * th ^ i) 11 = r ->
  fst (project3 cam (backProject3 cam keypoint) want_jacobian) = keypoint.
Proof.
  intros cam r th Hd Hr Hinv.
  remember (bp_rectified cam keypoint) as rect eqn:Erect.
  set (f := polynomial_at cam r).
  assert (Hrr : x2 rect * x2 rect + y2 rect * y2 rect = r * r).
  { unfold r, bp_rho. rewrite <- Erect. unfold norm2.
    rewrite sqrt_sqrt; [reflexivity |].
    unfold squaredNorm2. nra. }
  assert (Hraw : bp_raw cam keypoint = mkVector3d (x2 rect) (y2 rect) (- f)).
  { unfold bp_raw. rewrite <- Erect. f_equal. apply bp_z_polynomial. }
  assert (Hv : bp_raw cam keypoint <> mkVector3d 0 0 0).
  { rewrite Hraw. intros E. injection E as Ex Ey _.
    rewrite Ex, Ey in Hrr. nra. }
  set (N := norm3 (bp_raw cam keypoint)).
  assert (HN : 0 < N).
  { apply sqrt_lt_R0. apply squaredNorm3_pos. exact Hv. }
  assert (Hb : backProject3 cam keypoint
               = mkVector3d (x2 rect / N) (y2 rect / N) (- f / N)).
  { unfold backProject3. rewrite normalize_nonzero by exact Hv.
    fold N. rewrite Hraw. reflexivity. }
  rewrite Hb. set (b := mkVector3d _ _ _).
  assert (Hnb : xy_norm b = r / N).
  { unfold xy_norm, xy_norm2, pr_x, pr_y, b. simpl.
    replace (x2 rect / N * (x2 rect / N * 1) + y2 rect / N * (y2 rect / N * 1))
      with ((r / N) * (r / N)).
    - apply sqrt_square. apply Rlt_le. apply Rdiv_lt_0_compat; assumption.
    - transitivity ((x2 rect * x2 rect + y2 rect * y2 rect) / (N * N)).
      + rewrite Hrr. field. lra.
      + field. lra. }
  assert (Htb : theta b = th).
  { unfold theta, z_by_xy_norm. rewrite Hnb. unfold th, pr_z, b. simpl.
    fold f. f_equal. field. split; lra. }
  assert (Hrb : rho cam b = r).
  { rewrite rho_polynomial, Htb. exact Hinv. }
  assert (Hraw_uv : raw_uv cam b = rect).
  { unfold raw_uv. rewrite Hrb, Hnb. unfold pr_x, pr_y, b. simpl.
    destruct rect as [rx ry]. simpl. f_equal; field; split; lra. }
  unfold project3, out_keypoint. simpl fst. rewrite Hraw_uv.
  rewrite Erect. unfold bp_rectified.
  apply affine_of_rectified. unfold determinant. cbn. lra.
Qed.

Lemma keypoint_round_trip_witness :
  let cam := newOCam (mkVector2i 640 480) [-100; 0; 0.001; 0; 0]
                     (mkVector2d 320 240) (mkVector3d 1 0 0)
                     [1; 0; 0; 0; 0; 0; 0; 0; 0; 0; 0; 0] in
  let keypoint := mkVector2d 321 240 in
  let r := bp_rho cam keypoint in
  let th := atan (polynomial_at cam r / r) in
  (1 * 1 - 0 * 0 <> 0 /\ 0 < r /\
   sum_f_R0 (fun i => coeff [1; 0; 0; 0; 0; 0; 0; 0; 0; 0; 0; 0] i * th ^ i) 11
   = r) /\
  fst (project3 cam (backProject3 cam keypoint) false) = keypoint.
Proof.
  intros cam keypoint r th.
  assert (Hd : 1 * 1 - 0 * 0 <> 0) by lra.
  assert (Er : r = 1).
  { unfold r, bp_rho, norm2, squaredNorm2, bp_rectified, cam, newOCam.
    unfold inverse, determinant, mul_mv, sub2, keypoint. cbn.
    replace ((1 * (1 / (1 * 1 - 0 * 0)) * (321 - 320)
              + - 0 * (1 / (1 * 1 - 0 * 0)) * (240 - 240))
             * (1 * (1 / (1 * 1 - 0 * 0)) * (321 - 320)
                + - 0 * (1 / (1 * 1 - 0 * 0)) * (240 - 240))
             + (- 0 * (1 / (1 * 1 - 0 * 0)) * (321 - 320)
                + 1 * (1 / (1 * 1 - 0 * 0)) * (240 - 240))
               * (- 0 * (1 / (1 * 1 - 0 * 0)) * (321 - 320)
                  + 1 * (1 / (1 * 1 - 0 * 0)) * (240 - 240)))
      with 1 by field.
    apply sqrt_1. }
  assert (Hr : 0 < r) by lra.
  assert (Hinv : sum_f_R0
                   (fun i => coeff [1; 0; 0; 0; 0; 0; 0; 0; 0; 0; 0; 0] i
                             * th ^ i) 11 = r).
  { rewrite Er. unfold coeff. simpl. ring. }
  split; [repeat split; assumption |].
  exact (keypoint_round_trip (mkVector2i 640 480) [-100; 0; 0.001; 0; 0]
           (mkVector2d 320 240) [1; 0; 0; 0; 0; 0; 0; 0; 0; 0; 0; 0]
           1 0 0 keypoint false Hd Hr Hinv).
Defined.

(** ** The intrinsic parameters *)

(** X9. For a polynomial of five coefficients, [getIntrinsicParameters] of the
    constructed camera is the polynomial followed by the principal point,
    whatever the other arguments of the constructor are. *)
Theorem intrinsic_layout (image_size : Vector2i) (polynomial : VectorXd)
    (principal_point : Vector2d) (distortion : Vector3d)
    (inverse_polynomial : VectorXd) :
  List.length polynomial = 5%nat ->
  getIntrinsicParameters
    (newOCam image_size polynomial principal_point distortion
             inverse_polynomial) =
  (polynomial ++ [x2 principal_point; y2 principal_point])%list.
Proof.
  intros Hlen.
  do 5 (destruct polynomial as [| ? polynomial]; [discriminate Hlen |]).
  destruct polynomial; [| discriminate Hlen].
  reflexivity.
Qed.

Lemma intrinsic_layout_witness :
  List.length [-100; 0; 0.001; 0; 0] = 5%nat /\
  getIntrinsicParameters scenario_camera =
  ([-100; 0; 0.001; 0; 0] ++ [320; 240])%list.
Proof.
  split; [reflexivity |].
  exact (intrinsic_layout (mkVector2i 640 480) [-100; 0; 0.001; 0; 0]
           (mkVector2d 320 240) (mkVector3d 1 0 0)
           [0; 1; 0; 0; 0; 0; 0; 0; 0; 0; 0; 0] eq_refl).
Defined.

(** ** Further properties of the loading *)

(** *** Characters *)

Lemma space_not_digit (c : ascii) : isspace c = true -> isdigit c = false.
Proof.
  destruct c as [[] [] [] [] [] [] [] []]; intros H; try reflexivity;
    discriminate H.
Qed.

Lemma digit_not_space (c : ascii) : isdigit c = true -> isspace c = false.
Proof.
  intros Hd. destruct (isspace c) eqn:Hs; [| reflexivity].
  rewrite (space_not_digit c Hs) in Hd. discriminate Hd.
Qed.

Lemma take_sign_digit (c : ascii) (l : list ascii) :
  isdigit c = true -> take_sign (c :: l) = (false, c :: l).
Proof.
  destruct c as [[] [] [] [] [] [] [] []]; intros H; try reflexivity;
    discriminate H.
Qed.

Lemma take_sign_space (c : ascii) (l : list ascii) :
  isspace c = true -> take_sign (c :: l) = (false, c :: l).
Proof.
  destruct c as [[] [] [] [] [] [] [] []]; intros H; try reflexivity;
    discriminate H.
Qed.

Lemma skipws_space (ws l : list ascii) :
  all_space ws = true -> skipws (ws ++ l) = skipws l.
Proof.
  induction ws as [| c ws IH]; simpl; intros H; [reflexivity |].
  apply andb_prop in H. destruct H as [Hc Hws]. rewrite Hc. apply IH, Hws.
Qed.

Lemma skipws_all_space (ws : list ascii) :
  all_space ws = true -> skipws ws = [].
Proof.
  intros H. rewrite <- (app_nil_r ws). rewrite skipws_space by exact H.
  reflexivity.
Qed.

Lemma skipws_stop (c : ascii) (l : list ascii) :
  isspace c = false -> skipws (c :: l) = c :: l.
Proof. intros H. simpl. rewrite H. reflexivity. Qed.

Lemma take_digits_stop (ds : list ascii) (c : ascii) (l : list ascii) :
  all_digits ds = true -> isdigit c = false ->
  take_digits (ds ++ c :: l) = (ds, c :: l).
Proof.
  induction ds as [| d ds IH]; simpl; intros Hds Hc.
  - rewrite Hc. reflexivity.
  - apply andb_prop in Hds. destruct Hds as [Hd Hds].
    rewrite Hd, (IH Hds Hc). reflexivity.
Qed.

(** *** A stream that has failed *)

Lemma extract_int_failed (s : istream) :
  good s = false ->
  extract_int s = (setstate s false true, None).
Proof. intros H. unfold extract_int, sentry. rewrite H. reflexivity. Qed.

Lemma extract_double_failed (s : istream) :
  good s = false ->
  extract_double s = (setstate s false true, None).
Proof. intros H. unfold extract_double, sentry. rewrite H. reflexivity. Qed.

Lemma setstate_fail_not_good (s : istream) :
  good (setstate s false true) = false.
Proof.
  unfold good, setstate. simpl. rewrite orb_true_r. apply andb_false_r.
Qed.

Lemma store_none {A : Type} (v : list A) (i : nat) : store v i None = v.
Proof. destruct v; reflexivity. Qed.

Lemma read_into_failed {A : Type} (extract : istream -> istream * option A)
    (n i0 : nat) (s : istream) (v : list A) :
  (forall s', good s' = false -> extract s' = (setstate s' false true, None)) ->
  good s = false ->
  good (fst (read_into extract n i0 (s, v))) = false
  /\ snd (read_into extract n i0 (s, v)) = v.
Proof.
  intros Hext. revert i0 s. induction n as [| n IH]; intros i0 s Hs.
  - split; [exact Hs | reflexivity].
  - simpl. rewrite (Hext s Hs). simpl. rewrite store_none.
    apply IH. apply setstate_fail_not_good.
Qed.

(** *** Reading numbers that are written as expected *)

Lemma extract_int_written (ws : list ascii) (t : int_text)
    (sep rest : list ascii) :
  all_space ws = true -> int_ok t = true -> separator sep = true ->
  extract_int (mkIStream (ws ++ int_chars t ++ sep ++ rest) false false) =
  (mkIStream (sep ++ rest) false false, Some (int_value t)).
Proof.
  intros Hws Hok Hsep.
  destruct sep as [| c sep]; [discriminate Hsep |].
  simpl in Hsep. apply andb_prop in Hsep. destruct Hsep as [Hc _].
  destruct t as [minus ds]. unfold int_ok, int_chars, int_value in *.
  simpl in *. destruct ds as [| d ds]; [discriminate Hok |].
  apply andb_prop in Hok. destruct Hok as [Hok Hmax].
  apply andb_prop in Hok. destruct Hok as [Hds Hmin].
  pose proof Hds as Hds'. simpl in Hds'. apply andb_prop in Hds'.
  destruct Hds' as [Hd _].
  unfold extract_int, sentry. cbn [good eofbit failbit negb andb buffer].
  rewrite skipws_space by exact Hws.
  assert (Htake : take_digits (d :: ds ++ c :: sep ++ rest)
                  = (d :: ds, c :: sep ++ rest)).
  { apply (take_digits_stop (d :: ds) c (sep ++ rest));
      [exact Hds | apply space_not_digit, Hc]. }
  destruct minus.
  - cbn [app]. rewrite skipws_stop by reflexivity.
    cbn [buffer take_sign]. rewrite Htake.
    apply Z.leb_le in Hmin. apply Z.leb_le in Hmax.
    destruct (Z.ltb_spec (- digits_value (d :: ds)) int_min) as [H1 | _];
      [lia |].
    destruct (Z.ltb_spec int_max (- digits_value (d :: ds))) as [H2 | _];
      [lia |].
    reflexivity.
  - cbn [app]. rewrite skipws_stop by (apply digit_not_space, Hd).
    cbn [buffer]. rewrite take_sign_digit by exact Hd.
    rewrite Htake.
    apply Z.leb_le in Hmin. apply Z.leb_le in Hmax.
    destruct (Z.ltb_spec (digits_value (d :: ds)) int_min) as [H1 | _];
      [lia |].
    destruct (Z.ltb_spec int_max (digits_value (d :: ds))) as [H2 | _];
      [lia |].
    reflexivity.
Qed.

Lemma space_not_e (c : ascii) : isspace c = true -> is_e c = false.
Proof.
  destruct c as [[] [] [] [] [] [] [] []]; intros H; try reflexivity;
    discriminate H.
Qed.

(** What follows the sign of a real that is written as expected. *)
Lemma scan_real_written (s1 : istream) (negative : bool) (d : ascii)
    (ds : list ascii) (frac : option (list ascii)) (c : ascii)
    (rest : list ascii) :
  all_digits (d :: ds) = true ->
  all_digits (match frac with Some f => f | None => [] end) = true ->
  isspace c = true ->
  eofbit s1 = false -> failbit s1 = false ->
  (let (int_ds, l2) :=
     take_digits
       ((d :: ds) ++ match frac with
                     | Some f => "."%char :: f
                     | None => []
                     end ++ c :: rest) in
   let (frac_ds, l3) :=
     match l2 with
     | "."%char :: l => take_digits l
     | _ => ([], l2)
     end in
   let '(exponent, exp_ok, l4) :=
     match l3 with
     | c0 :: l =>
         if is_e c0 && match (int_ds ++ frac_ds)%list with
                       | [] => false
                       | _ => true
                       end
         then
           let (exp_negative, l') := take_sign l in
           let (exp_ds, l'') := take_digits l' in
           let e := digits_value exp_ds in
           (if exp_negative then (- e)%Z else e,
            match exp_ds with [] => false | _ => true end, l'')
         else (0%Z, true, l3)
     | [] => (0%Z, true, l3)
     end in
   if match (int_ds ++ frac_ds)%list with [] => false | _ => true end && exp_ok
   then
     let m := digits_value (int_ds ++ frac_ds) in
     let m := if negative then (- m)%Z else m in
     (after_number s1 l4 true,
      Some (decimal m (exponent - Z.of_nat (List.length frac_ds))))
   else (after_number s1 l4 false, Some 0%Q)) =
  (mkIStream (c :: rest) false false,
   Some (decimal
           (if negative
            then (- digits_value ((d :: ds)
                                  ++ match frac with Some f => f | None => [] end))%Z
            else digits_value ((d :: ds)
                               ++ match frac with Some f => f | None => [] end))
           (- Z.of_nat (List.length
                          (match frac with Some f => f | None => [] end))))).
Proof.
  intros Hds Hfrac Hc He Hf.
  assert (Hafter : after_number s1 (c :: rest) true
                   = mkIStream (c :: rest) false false).
  { unfold after_number, setstate. simpl. rewrite He, Hf. reflexivity. }
  destruct frac as [f |].
  - cbn [app].
    pose proof (take_digits_stop (d :: ds) "."%char (f ++ c :: rest) Hds
                  eq_refl) as Htake.
    cbn [app] in Htake. rewrite Htake.
    rewrite (take_digits_stop f c rest Hfrac (space_not_digit c Hc)).
    rewrite (space_not_e c Hc). cbn [andb app].
    rewrite Hafter. reflexivity.
  - cbn [app].
    pose proof (take_digits_stop (d :: ds) c rest Hds (space_not_digit c Hc))
      as Htake.
    cbn [app] in Htake. rewrite Htake.
    assert (Hdot : match c :: rest with
                   | "."%char :: l => take_digits l
                   | _ => ([], c :: rest)
                   end = ([], c :: rest)).
    { clear - Hc. destruct c as [[] [] [] [] [] [] [] []]; try reflexivity;
        discriminate Hc. }
    rewrite Hdot. rewrite (space_not_e c Hc). cbn [andb].
    rewrite !app_nil_r. rewrite Hafter. reflexivity.
Qed.

Lemma extract_double_written (ws : list ascii) (t : real_text)
    (sep rest : list ascii) :
  all_space ws = true -> real_ok t = true -> separator sep = true ->
  extract_double (mkIStream (ws ++ real_chars t ++ sep ++ rest) false false) =
  (mkIStream (sep ++ rest) false false, Some (real_value t)).
Proof.
  intros Hws Hok Hsep.
  destruct sep as [| c sep]; [discriminate Hsep |].
  simpl in Hsep. apply andb_prop in Hsep. destruct Hsep as [Hc _].
  destruct t as [minus ds frac]. unfold real_ok, real_chars, real_value in *.
  unfold frac_digits in *. cbn [rt_minus rt_int rt_frac] in *.
  destruct ds as [| d ds]; [discriminate Hok |].
  apply andb_prop in Hok. destruct Hok as [Hds Hfrac].
  pose proof Hds as Hds'. simpl in Hds'. apply andb_prop in Hds'.
  destruct Hds' as [Hd _].
  unfold extract_double, sentry. cbn [good eofbit failbit negb andb buffer].
  rewrite skipws_space by exact Hws.
  rewrite <- !app_assoc.
  destruct minus.
  - cbn [app]. rewrite skipws_stop by reflexivity.
    cbn [buffer take_sign].
    apply (scan_real_written _ true d ds frac c (sep ++ rest));
      try assumption; reflexivity.
  - cbn [app]. rewrite skipws_stop by (apply digit_not_space, Hd).
    cbn [buffer]. rewrite take_sign_digit by exact Hd.
    apply (scan_real_written _ false d ds frac c (sep ++ rest));
      try assumption; reflexivity.
Qed.

Lemma store_at {A : Type} (pre : list A) (b a : A) (post : list A) :
  store (pre ++ b :: post) (List.length pre) (Some a) = (pre ++ a :: post)%list.
Proof.
  induction pre as [| x pre IH]; simpl.
  - reflexivity.
  - f_equal. exact IH.
Qed.

Section ReadWritten.
Context {A T : Type}.
Variable extract : istream -> istream * option A.
Variable chars : T -> list ascii.
Variable value : T -> A.
Variable ok : T -> bool.
Hypothesis extract_written :
  forall (ws : list ascii) (t : T) (sep rest : list ascii),
    all_space ws = true -> ok t = true -> separator sep = true ->
    extract (mkIStream (ws ++ chars t ++ sep ++ rest) false false) =
    (mkIStream (sep ++ rest) false false, Some (value t)).

Lemma read_into_written (items : list (T * list ascii)) :
  forall (ws rest : list ascii) (pre : list A) (z : A),
    all_space ws = true -> items_ok ok items = true ->
    exists ws' : list ascii,
      all_space ws' = true /\
      read_into extract (List.length items) (List.length pre)
        (mkIStream (ws ++ written chars items ++ rest) false false,
         (pre ++ repeat z (List.length items))%list) =
      (mkIStream (ws' ++ rest) false false, (pre ++ values value items)%list).
Proof.
  induction items as [| [t sep] items IH]; intros ws rest pre z Hws Hok.
  - exists ws. split; [exact Hws | reflexivity].
  - cbn [items_ok forallb fst snd] in Hok.
    apply andb_prop in Hok. destruct Hok as [Hitem Hok].
    apply andb_prop in Hitem. destruct Hitem as [Ht Hsep].
    assert (Hsp : all_space sep = true).
    { destruct sep; [discriminate Hsep | exact Hsep]. }
    destruct (IH sep rest (pre ++ [value t])%list z Hsp Hok)
      as (ws' & Hws' & E).
    exists ws'. split; [exact Hws' |].
    cbn [List.length written flat_map fst snd read_into repeat values map].
    rewrite <- !app_assoc.
    rewrite (extract_written ws t sep _ Hws Ht Hsep).
    rewrite store_at.
    replace (S (List.length pre)) with (List.length (pre ++ [value t]))
      by (rewrite length_app; simpl; lia).
    replace (pre ++ value t :: repeat z (List.length items))%list
      with ((pre ++ [value t]) ++ repeat z (List.length items))%list
      by (rewrite <- app_assoc; reflexivity).
    unfold written, values in E. rewrite E.
    rewrite <- app_assoc. reflexivity.
Qed.

Lemma read_group (n : nat) (items : list (T * list ascii))
    (ws rest : list ascii) (z : A) :
  List.length items = n ->
  all_space ws = true -> items_ok ok items = true ->
  exists ws' : list ascii,
    all_space ws' = true /\
    read_into extract n 0
      (mkIStream (ws ++ written chars items ++ rest) false false, repeat z n) =
    (mkIStream (ws' ++ rest) false false, values value items).
Proof.
  intros Hn Hws Hok. subst n.
  exact (read_into_written items ws rest [] z Hws Hok).
Qed.
End ReadWritten.



Lemma not_number_start (c : ascii) (l : list ascii) :
  number_start c = false ->
  isdigit c = false /\ take_sign (c :: l) = (false, c :: l)
  /\ forall (B : Type) (f : list ascii -> B) (y : B),
       match c :: l with "."%char :: l' => f l' | _ => y end = y.
Proof.
  destruct c as [[] [] [] [] [] [] [] []]; intros H;
    try discriminate H; repeat split.
Qed.

Lemma all_space_no_number (l : list ascii) :
  all_space l = true -> no_number l = true.
Proof.
  intros H. unfold no_number. rewrite (skipws_all_space l H). reflexivity.
Qed.

Lemma extract_int_no_number (ws l : list ascii) :
  all_space ws = true -> no_number l = true ->
  good (fst (extract_int (mkIStream (ws ++ l) false false))) = false.
Proof.
  intros Hws Hno. unfold extract_int, sentry.
  cbn [good eofbit failbit negb andb buffer].
  rewrite skipws_space by exact Hws. unfold no_number in Hno.
  destruct (skipws l) as [| c r]; [reflexivity |].
  apply negb_true_iff in Hno.
  destruct (not_number_start c r Hno) as (Hd & Hsign & _).
  cbn [buffer]. rewrite Hsign. cbn [take_digits]. rewrite Hd. reflexivity.
Qed.

Lemma extract_double_no_number (ws l : list ascii) :
  all_space ws = true -> no_number l = true ->
  good (fst (extract_double (mkIStream (ws ++ l) false false))) = false.
Proof.
  intros Hws Hno. unfold extract_double, sentry.
  cbn [good eofbit failbit negb andb buffer].
  rewrite skipws_space by exact Hws. unfold no_number in Hno.
  destruct (skipws l) as [| c r]; [reflexivity |].
  apply negb_true_iff in Hno.
  destruct (not_number_start c r Hno) as (Hd & Hsign & Hdot).
  cbn [buffer]. rewrite Hsign. cbn [take_digits]. rewrite Hd.
  rewrite Hdot. cbn [app]. rewrite andb_false_r. reflexivity.
Qed.

Section ReadShort.
Context {A T : Type}.
Variable extract : istream -> istream * option A.
Variable chars : T -> list ascii.
Variable value : T -> A.
Variable ok : T -> bool.
Hypothesis extract_written :
  forall (ws : list ascii) (t : T) (sep rest : list ascii),
    all_space ws = true -> ok t = true -> separator sep = true ->
    extract (mkIStream (ws ++ chars t ++ sep ++ rest) false false) =
    (mkIStream (sep ++ rest) false false, Some (value t)).
Hypothesis extract_failed :
  forall s : istream,
    good s = false -> extract s = (setstate s false true, None).
Hypothesis extract_no_number :
  forall ws l : list ascii,
    all_space ws = true -> no_number l = true ->
    good (fst (extract (mkIStream (ws ++ l) false false))) = false.

(** Fewer numbers than are asked for, and then no number: the stream is
    not good afterwards. *)
Lemma read_into_short (items : list (T * list ascii)) :
  forall (n i0 : nat) (ws trail : list ascii) (v : list A),
    (List.length items < n)%nat ->
    all_space ws = true -> items_ok ok items = true ->
    no_number trail = true ->
    good (fst (read_into extract n i0
                 (mkIStream (ws ++ written chars items ++ trail) false false,
                  v))) = false.
Proof.
  induction items as [| [t sep] items IH];
    intros n i0 ws trail v Hlen Hws Hok Htrail.
  - destruct n as [| n]; [simpl in Hlen; lia |].
    cbn [written flat_map app read_into fst snd].
    pose proof (extract_no_number ws trail Hws Htrail) as Heof.
    destruct (extract (mkIStream (ws ++ trail) false false)) as [s' a].
    simpl in Heof.
    apply (read_into_failed extract n (S i0) s' (store v i0 a)
             extract_failed Heof).
  - destruct n as [| n]; [simpl in Hlen; lia |]. simpl in Hlen.
    cbn [items_ok forallb fst snd] in Hok.
    apply andb_prop in Hok. destruct Hok as [Hitem Hok].
    apply andb_prop in Hitem. destruct Hitem as [Ht Hsep].
    assert (Hsp : all_space sep = true).
    { destruct sep; [discriminate Hsep | exact Hsep]. }
    cbn [written flat_map fst snd read_into].
    rewrite <- !app_assoc.
    rewrite (extract_written ws t sep _ Hws Ht Hsep).
    apply IH; try assumption. lia.
Qed.
End ReadShort.

Lemma split_at {X : Type} (n : nat) (l : list X) :
  (n <= List.length l)%nat ->
  exists a b : list X, l = (a ++ b)%list /\ List.length a = n.
Proof.
  intros H. exists (firstn n l), (skipn n l). split.
  - symmetry. apply firstn_skipn.
  - apply firstn_length_le. exact H.
Qed.

Lemma items_ok_app {T : Type} (ok : T -> bool) (a b : list (T * list ascii)) :
  items_ok ok (a ++ b) = true ->
  items_ok ok a = true /\ items_ok ok b = true.
Proof.
  unfold items_ok. rewrite forallb_app. intros H.
  apply andb_prop in H. exact H.
Qed.

Lemma written_app {T : Type} (chars : T -> list ascii)
    (a b : list (T * list ascii)) :
  written chars (a ++ b) = (written chars a ++ written chars b)%list.
Proof. unfold written. apply flat_map_app. Qed.





(** *** What a successful extraction leaves, and what it does not look at *)

Lemma extract_double_stages (s : istream) :
  extract_double s =
  let (s1, ok) := sentry s in
  if ok then
    let (negative, l1) := take_sign (buffer s1) in
    let (int_ds, l2) := take_digits l1 in
    let (frac_ds, l3) := take_fraction l2 in
    let found_mantissa :=
      match (int_ds ++ frac_ds)%list with [] => false | _ => true end in
    let '(exponent, exp_ok, l4) := take_exponent found_mantissa l3 in
    if found_mantissa && exp_ok then
      let m := digits_value (int_ds ++ frac_ds) in
      let m := if negative then (- m)%Z else m in
      (after_number s1 l4 true,
       Some (decimal m (exponent - Z.of_nat (List.length frac_ds))))
    else (after_number s1 l4 false, Some 0%Q)
  else (s1, None).
Proof. reflexivity. Qed.

Lemma good_bits (s : istream) :
  good s = true -> eofbit s = false /\ failbit s = false.
Proof.
  unfold good. intros H. apply andb_prop in H. destruct H as [He Hf].
  apply negb_true_iff in He. apply negb_true_iff in Hf. split; assumption.
Qed.

Lemma after_number_good (s1 : istream) (l : list ascii) (ok : bool) :
  good (after_number s1 l ok) = true ->
  ok = true /\ exists c r, l = c :: r.
Proof.
  unfold after_number, setstate, good. simpl. intros H.
  apply andb_prop in H. destruct H as [He Hf].
  apply negb_true_iff in He. apply negb_true_iff in Hf.
  apply orb_false_elim in He. destruct He as [_ He].
  apply orb_false_elim in Hf. destruct Hf as [_ Hf].
  apply negb_false_iff in Hf. split; [exact Hf |].
  destruct l as [| c r]; [discriminate He |]. exists c, r. reflexivity.
Qed.

Lemma skipws_more (l : list ascii) (c : ascii) (r more : list ascii) :
  skipws l = c :: r -> skipws (l ++ more) = (c :: r ++ more).
Proof.
  induction l as [| a l IH]; simpl; intros H; [discriminate H |].
  destruct (isspace a).
  - apply IH, H.
  - injection H as -> ->. reflexivity.
Qed.

Lemma take_sign_more (c : ascii) (r more : list ascii) :
  take_sign (c :: r ++ more)
  = (fst (take_sign (c :: r)), (snd (take_sign (c :: r)) ++ more)%list).
Proof. destruct c as [[] [] [] [] [] [] [] []]; reflexivity. Qed.

Lemma take_digits_more (l ds : list ascii) (c : ascii) (r more : list ascii) :
  take_digits l = (ds, c :: r) ->
  take_digits (l ++ more) = (ds, c :: r ++ more).
Proof.
  revert ds. induction l as [| a l IH]; simpl; intros ds H;
    [discriminate H |].
  destruct (isdigit a).
  - destruct (take_digits l) as [ds' tl] eqn:E.
    injection H as <- ->. rewrite (IH ds' eq_refl). reflexivity.
  - injection H as <- -> ->. reflexivity.
Qed.

Lemma take_fraction_more (l fds : list ascii) (c : ascii)
    (r more : list ascii) :
  take_fraction l = (fds, c :: r) ->
  take_fraction (l ++ more) = (fds, c :: r ++ more).
Proof.
  destruct l as [| a l]; [discriminate |].
  destruct (ascii_dec a "."%char) as [-> | Hne].
  - cbn [take_fraction app]. apply take_digits_more.
  - assert (Hskip : forall l', take_fraction (a :: l') = ([], a :: l')).
    { intros l'. clear - Hne.
      destruct a as [[] [] [] [] [] [] [] []]; try reflexivity.
      exfalso. apply Hne. reflexivity. }
    rewrite Hskip. intros H. injection H as <- -> ->.
    cbn [app]. apply Hskip.
Qed.

Lemma take_exponent_more (fm : bool) (l : list ascii) (ex : Z) (eok : bool)
    (c : ascii) (r more : list ascii) :
  take_exponent fm l = (ex, eok, c :: r) ->
  take_exponent fm (l ++ more) = (ex, eok, c :: r ++ more).
Proof.
  destruct l as [| a l]; [discriminate |].
  cbn [take_exponent app]. destruct (is_e a && fm).
  - destruct l as [| b l].
    + discriminate.
    + cbn [app]. rewrite take_sign_more.
      destruct (take_sign (b :: l)) as [neg l'] eqn:Es. cbn [fst snd].
      destruct (take_digits l') as [eds l''] eqn:Ed.
      intros H. injection H as <- <- ->.
      rewrite (take_digits_more l' eds c r more Ed). reflexivity.
  - intros H. injection H as <- <- <- <-. reflexivity.
Qed.

(** An extraction that leaves the stream good has stopped before the
    end of the input, and gives the same when more input follows. *)
Lemma extract_int_more (s : istream) (more : list ascii) :
  good (fst (extract_int s)) = true ->
  buffer (fst (extract_int s)) <> []
  /\ extract_int (with_more s more)
     = (with_more (fst (extract_int s)) more, snd (extract_int s)).
Proof.
  unfold extract_int, sentry, with_more.
  destruct (good s) eqn:Hg.
  - destruct (good_bits s Hg) as [He Hf].
    unfold good. cbn [eofbit failbit buffer]. rewrite He, Hf.
    cbn [negb andb].
    destruct (skipws (buffer s)) as [| c r] eqn:Esk; [discriminate |].
    rewrite (skipws_more _ c r more Esk). cbn [buffer].
    rewrite take_sign_more.
    destruct (take_sign (c :: r)) as [neg l1]. cbn [fst snd].
    destruct (take_digits l1) as [ds l2] eqn:Ed.
    destruct l2 as [| c2 r2].
    + intros H. exfalso. revert H.
      destruct ds as [| d ds];
        [| destruct (_ <? int_min)%Z; [| destruct (int_max <? _)%Z]];
        cbn [fst]; intros H; apply after_number_good in H;
        destruct H as [_ (c2 & r2 & H)]; discriminate H.
    + rewrite (take_digits_more l1 ds c2 r2 more Ed).
      destruct ds as [| d ds].
      * cbn [fst]. intros H. apply after_number_good in H.
        destruct H as [H _]. discriminate H.
      * destruct (_ <? int_min)%Z.
        -- cbn [fst]. intros H. apply after_number_good in H.
           destruct H as [H _]. discriminate H.
        -- destruct (int_max <? _)%Z.
           ++ cbn [fst]. intros H. apply after_number_good in H.
              destruct H as [H _]. discriminate H.
           ++ intros _. split; [discriminate | reflexivity].
  - cbn [fst]. rewrite setstate_fail_not_good. discriminate.
Qed.

Lemma extract_double_more (s : istream) (more : list ascii) :
  good (fst (extract_double s)) = true ->
  buffer (fst (extract_double s)) <> []
  /\ extract_double (with_more s more)
     = (with_more (fst (extract_double s)) more, snd (extract_double s)).
Proof.
  rewrite !extract_double_stages. unfold sentry, with_more.
  destruct (good s) eqn:Hg.
  - destruct (good_bits s Hg) as [He Hf].
    unfold good. cbn [eofbit failbit buffer]. rewrite He, Hf.
    cbn [negb andb].
    destruct (skipws (buffer s)) as [| c r] eqn:Esk; [discriminate |].
    rewrite (skipws_more _ c r more Esk). cbn [buffer].
    rewrite take_sign_more.
    destruct (take_sign (c :: r)) as [neg l1]. cbn [fst snd].
    destruct (take_digits l1) as [ids l2] eqn:Ed.
    destruct (take_fraction l2) as [fds l3] eqn:Ef.
    destruct (take_exponent _ l3) as [[ex eok] l4] eqn:Ee.
    destruct l4 as [| c4 r4].
    { intros H. exfalso. revert H.
      destruct (_ && eok); cbn [fst]; intros H;
        apply after_number_good in H;
        destruct H as [_ (c' & r' & H)]; discriminate H. }
    assert (H3 : exists c3 r3, l3 = c3 :: r3).
    { destruct l3 as [| c3 r3]; [discriminate Ee | eauto]. }
    destruct H3 as (c3 & r3 & ->).
    assert (H2 : exists c2 r2, l2 = c2 :: r2).
    { destruct l2 as [| c2 r2]; [discriminate Ef | eauto]. }
    destruct H2 as (c2 & r2 & ->).
    rewrite (take_digits_more l1 ids c2 r2 more Ed).
    change (c2 :: r2 ++ more)%list with ((c2 :: r2) ++ more)%list.
    rewrite (take_fraction_more (c2 :: r2) fds c3 r3 more Ef).
    change (c3 :: r3 ++ more)%list with ((c3 :: r3) ++ more)%list.
    rewrite (take_exponent_more _ (c3 :: r3) ex eok c4 r4 more Ee).
    destruct (_ && eok).
    + intros _. split; [discriminate | reflexivity].
    + cbn [fst]. intros H. apply after_number_good in H.
      destruct H as [H _]. discriminate H.
  - cbn [fst]. rewrite setstate_fail_not_good. discriminate.
Qed.

Section ReadMore.
Context {A : Type}.
Variable extract : istream -> istream * option A.
Hypothesis extract_failed :
  forall s : istream,
    good s = false -> extract s = (setstate s false true, None).
Hypothesis extract_more :
  forall (s : istream) (more : list ascii),
    good (fst (extract s)) = true ->
    buffer (fst (extract s)) <> []
    /\ extract (with_more s more)
       = (with_more (fst (extract s)) more, snd (extract s)).

Lemma read_into_more (n : nat) :
  forall (i0 : nat) (s : istream) (v : list A) (more : list ascii),
    good (fst (read_into extract n i0 (s, v))) = true ->
    read_into extract n i0 (with_more s more, v)
    = (with_more (fst (read_into extract n i0 (s, v))) more,
       snd (read_into extract n i0 (s, v))).
Proof.
  induction n as [| n IH]; intros i0 s v more Hgood.
  - reflexivity.
  - cbn [read_into fst snd] in *.
    destruct (extract s) as [s1 a] eqn:E1.
    destruct (good s1) eqn:Hg1.
    + destruct (extract_more s more) as [_ Emore].
      { rewrite E1. exact Hg1. }
      rewrite Emore, E1. cbn [fst snd]. apply IH. exact Hgood.
    + destruct (read_into_failed extract n (S i0) s1 (store v i0 a)
                  extract_failed Hg1) as [Hbad _].
      rewrite Hbad in Hgood. discriminate Hgood.
Qed.

Lemma read_into_unread (n : nat) :
  forall (i0 : nat) (s : istream) (v : list A),
    (0 < n)%nat ->
    good (fst (read_into extract n i0 (s, v))) = true ->
    buffer (fst (read_into extract n i0 (s, v))) <> [].
Proof.
  induction n as [| n IH]; intros i0 s v Hn Hgood; [lia |].
  cbn [read_into fst snd] in *.
  destruct (extract s) as [s1 a] eqn:E1.
  destruct n as [| n].
  - cbn [read_into fst] in *.
    destruct (extract_more s []) as [Hne _].
    { rewrite E1. exact Hgood. }
    rewrite E1 in Hne. exact Hne.
  - apply IH; [lia | exact Hgood].
Qed.
End ReadMore.

(** *** The body of [loadOCam], group by group *)

Lemma read_parameters_groups (s fs1 fs2 fs3 fs4 fs5 : istream)
    (image_size : list Z) (polynomial principal_point distortion
                           inverse_polynomial : list Q) :
  read_into extract_int 2 0 (s, repeat 0%Z 2) = (fs1, image_size) ->
  good fs1 = true ->
  read_into extract_double 5 0 (fs1, repeat 0%Q 5) = (fs2, polynomial) ->
  good fs2 = true ->
  read_into extract_double 2 0 (fs2, repeat 0%Q 2) = (fs3, principal_point) ->
  good fs3 = true ->
  read_into extract_double 3 0 (fs3, repeat 0%Q 3) = (fs4, distortion) ->
  good fs4 = true ->
  read_into extract_double kInversePolynomialOrder 0
            (fs4, repeat 0%Q kInversePolynomialOrder)
  = (fs5, inverse_polynomial) ->
  good fs5 = true ->
  read_parameters s =
  (fs5, mkLocals image_size polynomial principal_point distortion
                 inverse_polynomial, None).
Proof.
  intros E1 G1 E2 G2 E3 G3 E4 G4 E5 G5.
  unfold read_parameters, locals_start.
  cbn [l_image_size l_polynomial l_principal_point l_distortion
       l_inverse_polynomial].
  rewrite E1, G1. cbn [negb]. rewrite E2, G2. cbn [negb].
  rewrite E3, G3. cbn [negb]. rewrite E4, G4. cbn [negb].
  rewrite E5, G5. reflexivity.
Qed.

Lemma read_parameters_loaded (s fs : istream) (v : load_locals) :
  read_parameters s = (fs, v, None) ->
  exists fs1 fs2 fs3 fs4 : istream,
    (read_into extract_int 2 0 (s, repeat 0%Z 2) = (fs1, l_image_size v)
     /\ good fs1 = true)
    /\ (read_into extract_double 5 0 (fs1, repeat 0%Q 5)
        = (fs2, l_polynomial v) /\ good fs2 = true)
    /\ (read_into extract_double 2 0 (fs2, repeat 0%Q 2)
        = (fs3, l_principal_point v) /\ good fs3 = true)
    /\ (read_into extract_double 3 0 (fs3, repeat 0%Q 3)
        = (fs4, l_distortion v) /\ good fs4 = true)
    /\ (read_into extract_double kInversePolynomialOrder 0
                  (fs4, repeat 0%Q kInversePolynomialOrder)
        = (fs, l_inverse_polynomial v) /\ good fs = true).
Proof.
  unfold read_parameters, locals_start.
  cbn [l_image_size l_polynomial l_principal_point l_distortion
       l_inverse_polynomial].
  destruct (read_into extract_int 2 0 _) as [fs1 v1] eqn:E1.
  destruct (good fs1) eqn:G1; cbn [negb]; [| discriminate].
  destruct (read_into extract_double 5 0 _) as [fs2 v2] eqn:E2.
  destruct (good fs2) eqn:G2; cbn [negb]; [| discriminate].
  destruct (read_into extract_double 2 0 _) as [fs3 v3] eqn:E3.
  destruct (good fs3) eqn:G3; cbn [negb]; [| discriminate].
  destruct (read_into extract_double 3 0 _) as [fs4 v4] eqn:E4.
  destruct (good fs4) eqn:G4; cbn [negb]; [| discriminate].
  destruct (read_into extract_double kInversePolynomialOrder 0 _)
    as [fs5 v5] eqn:E5.
  destruct (good fs5) eqn:G5; cbn [negb]; [| discriminate].
  intros H. injection H as <- <-.
  exists fs1, fs2, fs3, fs4.
  cbn [l_image_size l_polynomial l_principal_point l_distortion
       l_inverse_polynomial].
  repeat split; assumption.
Qed.

Lemma loadOCam_loaded (files : filesystem) (parameter_file : string)
    (cam : OCam) :
  loadOCam files parameter_file = Loaded cam ->
  exists (content : string) (fs : istream) (v : load_locals),
    files parameter_file = Some content
    /\ read_parameters (open content) = (fs, v, None)
    /\ cam = newOCam
               (mkVector2i (nth 0 (l_image_size v) 0%Z)
                           (nth 1 (l_image_size v) 0%Z))
               (doubles (l_polynomial v))
               (mkVector2d (coeff (doubles (l_principal_point v)) 0)
                           (coeff (doubles (l_principal_point v)) 1))
               (mkVector3d (coeff (doubles (l_distortion v)) 0)
                           (coeff (doubles (l_distortion v)) 1)
                           (coeff (doubles (l_distortion v)) 2))
               (doubles (l_inverse_polynomial v)).
Proof.
  unfold loadOCam.
  destruct (files parameter_file) as [content |] eqn:Hfile; [| discriminate].
  destruct (read_parameters (open content)) as [[fs v] [message |]] eqn:Hread;
    [discriminate |].
  intros H. injection H as <-. exists content, fs, v.
  split; [reflexivity |]. split; [exact Hread | reflexivity].
Qed.

(** X13. A file that is loaded has at least one character after its last
    number: the last extraction has stopped before the end of the file,
    at a character that is left unread. *)
Theorem loaded_leaves_unread (files : filesystem) (parameter_file : string)
    (content : string) (cam : OCam) :
  files parameter_file = Some content ->
  loadOCam files parameter_file = Loaded cam ->
  exists (fs : istream) (v : load_locals),
    read_parameters (open content) = (fs, v, None)
    /\ good fs = true /\ buffer fs <> [].
Proof.
  intros Hfile Hload.
  destruct (loadOCam_loaded files parameter_file cam Hload)
    as (content' & fs & v & Hfile' & Hread & _).
  rewrite Hfile in Hfile'. injection Hfile' as <-.
  exists fs, v. split; [exact Hread |].
  destruct (read_parameters_loaded _ fs v Hread)
    as (fs1 & fs2 & fs3 & fs4 & _ & _ & _ & _ & E5 & G5).
  split; [exact G5 |].
  pose proof (read_into_unread extract_double extract_double_more
                kInversePolynomialOrder 0 fs4
                (repeat 0%Q kInversePolynomialOrder)) as Hne.
  rewrite E5 in Hne. apply Hne.
  - unfold kInversePolynomialOrder. lia.
  - exact G5.
Qed.

Lemma load_scenario_camera :
  loadOCam (single_file "ocam.txt" scenario_file) "ocam.txt"%string
  = Loaded scenario_camera.
Proof.
  assert (Hfile : single_file "ocam.txt" scenario_file "ocam.txt"%string
                  = Some scenario_file) by reflexivity.
  unfold loadOCam. rewrite Hfile, read_scenario_file.
  destruct scenario_doubles as (Hp & Hpp & Hd & Hi).
  rewrite Hp, Hpp, Hd, Hi. reflexivity.
Qed.

Lemma loaded_leaves_unread_witness :
  single_file "ocam.txt" scenario_file "ocam.txt"%string = Some scenario_file
  /\ loadOCam (single_file "ocam.txt" scenario_file) "ocam.txt"%string
     = Loaded scenario_camera
  /\ exists (fs : istream) (v : load_locals),
       read_parameters (open scenario_file) = (fs, v, None)
       /\ good fs = true /\ buffer fs <> [].
Proof.
  assert (Hfile : single_file "ocam.txt" scenario_file "ocam.txt"%string
                  = Some scenario_file) by reflexivity.
  pose proof load_scenario_camera as Hload.
  split; [exact Hfile |]. split; [exact Hload |].
  exact (loaded_leaves_unread _ _ _ _ Hfile Hload).
Defined.

Lemma list_ascii_of_string_app (a b : string) :
  list_ascii_of_string (a ++ b)
  = (list_ascii_of_string a ++ list_ascii_of_string b)%list.
Proof.
  induction a as [| c a IH]; simpl; [reflexivity |]. f_equal. exact IH.
Qed.

Lemma read_parameters_more (s fs : istream) (v : load_locals)
    (more : list ascii) :
  read_parameters s = (fs, v, None) ->
  read_parameters (with_more s more) = (with_more fs more, v, None).
Proof.
  intros Hread.
  destruct (read_parameters_loaded s fs v Hread)
    as (fs1 & fs2 & fs3 & fs4 & (E1 & G1) & (E2 & G2) & (E3 & G3)
        & (E4 & G4) & (E5 & G5)).
  assert (Hgood : forall t, good (with_more t more) = good t) by reflexivity.
  assert (Hint : forall n t t' (l l' : list Z),
            read_into extract_int n 0 (t, l) = (t', l') -> good t' = true ->
            read_into extract_int n 0 (with_more t more, l)
            = (with_more t' more, l')).
  { intros n t t' l l' E G.
    rewrite (read_into_more extract_int extract_int_failed extract_int_more);
      rewrite E; [reflexivity | exact G]. }
  assert (Hdbl : forall n t t' (l l' : list Q),
            read_into extract_double n 0 (t, l) = (t', l') -> good t' = true ->
            read_into extract_double n 0 (with_more t more, l)
            = (with_more t' more, l')).
  { intros n t t' l l' E G.
    rewrite (read_into_more extract_double extract_double_failed
               extract_double_more);
      rewrite E; [reflexivity | exact G]. }
  destruct v as [v1 v2 v3 v4 v5]. cbn in *.
  apply (read_parameters_groups (with_more s more) (with_more fs1 more)
           (with_more fs2 more) (with_more fs3 more) (with_more fs4 more));
    try (rewrite Hgood; assumption).
  - apply Hint; assumption.
  - apply Hdbl; assumption.
  - apply Hdbl; assumption.
  - apply Hdbl; assumption.
  - apply Hdbl; assumption.
Qed.

(** X14. What follows the character at which the last number ends is not
    looked at: a file that is loaded gives the same camera when anything
    is added at its end. *)
Theorem load_ignores_what_follows (files files' : filesystem)
    (parameter_file parameter_file' content extra : string) (cam : OCam) :
  files parameter_file = Some content ->
  loadOCam files parameter_file = Loaded cam ->
  files' parameter_file' = Some (content ++ extra)%string ->
  loadOCam files' parameter_file' = Loaded cam.
Proof.
  intros Hfile Hload Hfile'.
  destruct (loadOCam_loaded files parameter_file cam Hload)
    as (content' & fs & v & Hc & Hread & ->).
  rewrite Hfile in Hc. injection Hc as <-.
  unfold loadOCam. rewrite Hfile'.
  assert (Hopen : open (content ++ extra)
                  = with_more (open content) (list_ascii_of_string extra)).
  { unfold open, with_more. cbn [buffer eofbit failbit].
    rewrite list_ascii_of_string_app. reflexivity. }
  rewrite Hopen, (read_parameters_more _ fs v _ Hread). reflexivity.
Qed.

Lemma load_ignores_what_follows_witness :
  let files := single_file "ocam.txt" scenario_file in
  let files' := single_file "more.txt"
                  (scenario_file ++ "# calibrated in the lab")%string in
  files "ocam.txt"%string = Some scenario_file
  /\ loadOCam files "ocam.txt"%string = Loaded scenario_camera
  /\ files' "more.txt"%string
     = Some (scenario_file ++ "# calibrated in the lab")%string
  /\ loadOCam files' "more.txt"%string = Loaded scenario_camera.
Proof.
  intros files files'.
  assert (Hfile : files "ocam.txt"%string = Some scenario_file) by reflexivity.
  assert (Hload : loadOCam files "ocam.txt"%string = Loaded scenario_camera)
    by exact load_scenario_camera.
  assert (Hfile' : files' "more.txt"%string
                   = Some (scenario_file ++ "# calibrated in the lab")%string)
    by reflexivity.
  split; [exact Hfile |]. split; [exact Hload |]. split; [exact Hfile' |].
  exact (load_ignores_what_follows files files' _ _ _ _ _ Hfile Hload Hfile').
Defined.

(** *** What every loaded camera has *)

Lemma store_length {A : Type} (v : list A) (i : nat) (a : option A) :
  List.length (store v i a) = List.length v.
Proof.
  destruct a as [b |]; [| apply f_equal, store_none].
  revert i. induction v as [| c v IH]; intros i; [reflexivity |].
  destruct i as [| i]; simpl; [reflexivity |]. f_equal. apply IH.
Qed.

Lemma store_Forall {A : Type} (P : A -> Prop) (v : list A) (i : nat)
    (a : option A) :
  Forall P v -> (forall b, a = Some b -> P b) -> Forall P (store v i a).
Proof.
  intros Hv Ha. destruct a as [b |]; [| rewrite store_none; exact Hv].
  specialize (Ha b eq_refl).
  revert i. induction Hv as [| c v Hc Hv IH]; intros i; [constructor |].
  destruct i as [| i]; simpl; constructor; auto.
Qed.

Lemma read_into_length {A : Type} (extract : istream -> istream * option A)
    (n : nat) :
  forall (i0 : nat) (s : istream) (v : list A),
    List.length (snd (read_into extract n i0 (s, v))) = List.length v.
Proof.
  induction n as [| n IH]; intros i0 s v; [reflexivity |].
  cbn [read_into fst snd]. destruct (extract s) as [s1 a].
  rewrite IH. apply store_length.
Qed.

Lemma read_into_Forall {A : Type} (P : A -> Prop)
    (extract : istream -> istream * option A) (n : nat) :
  (forall s b, snd (extract s) = Some b -> P b) ->
  forall (i0 : nat) (s : istream) (v : list A),
    Forall P v -> Forall P (snd (read_into extract n i0 (s, v))).
Proof.
  intros Hext. induction n as [| n IH]; intros i0 s v Hv; [exact Hv |].
  cbn [read_into fst snd]. destruct (extract s) as [s1 a] eqn:E.
  apply IH. apply store_Forall; [exact Hv |].
  intros b ->. apply (Hext s). rewrite E. reflexivity.
Qed.

Lemma extract_int_range (s : istream) (v : Z) :
  snd (extract_int s) = Some v -> (int_min <= v <= int_max)%Z.
Proof.
  unfold extract_int. destruct (sentry s) as [s1 ok].
  destruct ok; [| discriminate].
  destruct (take_sign (buffer s1)) as [neg l1].
  destruct (take_digits l1) as [ds l2].
  destruct ds as [| d ds].
  - intros H. injection H as <-. unfold int_min, int_max. lia.
  - destruct (Z.ltb_spec (if neg then (- digits_value (d :: ds))%Z
                          else digits_value (d :: ds)) int_min) as [H1 | H1].
    + intros H. injection H as <-. unfold int_min, int_max. lia.
    + destruct (Z.ltb_spec int_max
                  (if neg then (- digits_value (d :: ds))%Z
                   else digits_value (d :: ds))) as [H2 | H2].
      * intros H. injection H as <-. unfold int_min, int_max. lia.
      * intros H. injection H as <-. lia.
Qed.

(** X15. Every camera that [loadOCam] returns has an image size that an [int]
    holds, a polynomial of 5 coefficients and an inverse polynomial of 12
    coefficients. *)
Theorem loaded_camera_sizes (files : filesystem) (parameter_file : string)
    (cam : OCam) :
  loadOCam files parameter_file = Loaded cam ->
  (int_min <= xi (image_size_ cam) <= int_max)%Z
  /\ (int_min <= yi (image_size_ cam) <= int_max)%Z
  /\ List.length (polynomial_ cam) = 5%nat
  /\ List.length (inverse_polynomial_ cam) = 12%nat.
Proof.
  intros Hload.
  destruct (loadOCam_loaded files parameter_file cam Hload)
    as (content & fs & v & _ & Hread & ->).
  destruct (read_parameters_loaded _ fs v Hread)
    as (fs1 & fs2 & fs3 & fs4 & (E1 & _) & (E2 & _) & _ & _ & (E5 & _)).
  assert (Hrange : Forall (fun z => (int_min <= z <= int_max)%Z)
                          (l_image_size v)).
  { pose proof (read_into_Forall (fun z => (int_min <= z <= int_max)%Z)
                  extract_int 2 extract_int_range 0 (open content)
                  (repeat 0%Z 2)) as H.
    rewrite E1 in H. apply H.
    repeat constructor; unfold int_min, int_max; lia. }
  assert (Hnth : forall i, (int_min <= nth i (l_image_size v) 0 <= int_max)%Z).
  { intros i. destruct (Nat.lt_ge_cases i (List.length (l_image_size v)))
      as [Hi | Hi].
    - rewrite Forall_forall in Hrange. apply Hrange. apply nth_In. exact Hi.
    - rewrite nth_overflow by exact Hi. unfold int_min, int_max. lia. }
  cbn [newOCam image_size_ polynomial_ inverse_polynomial_ xi yi].
  split; [apply Hnth |]. split; [apply Hnth |].
  unfold doubles. rewrite !length_map.
  pose proof (read_into_length extract_double 5 0 fs1 (repeat 0%Q 5)) as L2.
  rewrite E2 in L2.
  pose proof (read_into_length extract_double kInversePolynomialOrder 0 fs4
                (repeat 0%Q kInversePolynomialOrder)) as L5.
  rewrite E5 in L5. split; [exact L2 | exact L5].
Qed.

Lemma loaded_camera_sizes_witness :
  loadOCam (single_file "ocam.txt" scenario_file) "ocam.txt"%string
  = Loaded scenario_camera
  /\ (int_min <= xi (image_size_ scenario_camera) <= int_max)%Z
  /\ (int_min <= yi (image_size_ scenario_camera) <= int_max)%Z
  /\ List.length (polynomial_ scenario_camera) = 5%nat
  /\ List.length (inverse_polynomial_ scenario_camera) = 12%nat.
Proof.
  pose proof load_scenario_camera as Hload.
  split; [exact Hload |].
  exact (loaded_camera_sizes _ _ _ Hload).
Defined.

(** X16. The accessors of a loaded camera give back what was read: the five
    numbers of the polynomial followed by the two of the principal point,
    and 1 followed by the numbers of the distortion in the order third,
    second, first. *)
Theorem loaded_camera_parameters (files : filesystem)
    (parameter_file content : string) (cam : OCam) :
  files parameter_file = Some content ->
  loadOCam files parameter_file = Loaded cam ->
  exists (fs : istream) (v : load_locals),
    read_parameters (open content) = (fs, v, None)
    /\ getIntrinsicParameters cam
       = doubles (l_polynomial v ++ l_principal_point v)
    /\ getDistortionParameters cam
       = [1; coeff (doubles (l_distortion v)) 2;
          coeff (doubles (l_distortion v)) 1;
          coeff (doubles (l_distortion v)) 0].
Proof.
  intros Hfile Hload.
  destruct (loadOCam_loaded files parameter_file cam Hload)
    as (content' & fs & v & Hc & Hread & ->).
  rewrite Hfile in Hc. injection Hc as <-.
  exists fs, v. split; [exact Hread |].
  destruct (read_parameters_loaded _ fs v Hread)
    as (fs1 & fs2 & fs3 & fs4 & _ & (E2 & _) & (E3 & _) & _ & _).
  pose proof (read_into_length extract_double 5 0 fs1 (repeat 0%Q 5)) as L2.
  rewrite E2 in L2.
  pose proof (read_into_length extract_double 2 0 fs2 (repeat 0%Q 2)) as L3.
  rewrite E3 in L3. cbn [snd List.length repeat] in L2, L3.
  split; [| reflexivity].
  destruct (l_polynomial v) as [| p0 [| p1 [| p2 [| p3 [| p4 [| ? ?]]]]]];
    try discriminate L2.
  destruct (l_principal_point v) as [| c0 [| c1 [| ? ?]]];
    try discriminate L3.
  reflexivity.
Qed.

Lemma loaded_camera_parameters_witness :
  single_file "ocam.txt" scenario_file "ocam.txt"%string = Some scenario_file
  /\ loadOCam (single_file "ocam.txt" scenario_file) "ocam.txt"%string
     = Loaded scenario_camera
  /\ exists (fs : istream) (v : load_locals),
       read_parameters (open scenario_file) = (fs, v, None)
       /\ getIntrinsicParameters scenario_camera
          = doubles (l_polynomial v ++ l_principal_point v)
       /\ getDistortionParameters scenario_camera
          = [1; coeff (doubles (l_distortion v)) 2;
             coeff (doubles (l_distortion v)) 1;
             coeff (doubles (l_distortion v)) 0].
Proof.
  assert (Hfile : single_file "ocam.txt" scenario_file "ocam.txt"%string
                  = Some scenario_file) by reflexivity.
  pose proof load_scenario_camera as Hload.
  split; [exact Hfile |]. split; [exact Hload |].
  exact (loaded_camera_parameters _ _ _ _ Hfile Hload).
Defined.

(** X17. [loadOCam] returns the null pointer when the file does not open, and
    only then: an open file gives a camera or ends the process. *)
Theorem null_iff_not_open (files : filesystem) (parameter_file : string) :
  loadOCam files parameter_file = NullPtr <-> files parameter_file = None.
Proof.
  unfold loadOCam. destruct (files parameter_file) as [content |].
  - destruct (read_parameters (open content)) as [[fs v] [message |]];
      split; discriminate.
  - split; reflexivity.
Qed.
